(** * Penguin Daycare Simulator server: roster cache, refresher and event handlers

    A shallow embedding of the Go package [app] (the revision guarded by a
    [sync.RWMutex], and the differences of the earlier [sync.Mutex] revision
    in [app/app.go]), with the properties of the refresh policy, the event
    handlers, the datastore gateway and the locking discipline. *)

From stdpp Require Import base gmap strings list fin_maps.

(** ** Go values *)

(** Go's [int] on the 64-bit runtime: two's complement, arithmetic wraps. *)
Module GoInt.
Definition bits : Z := 64.
Definition min_int : Z := - 2 ^ (bits - 1).
Definition max_int : Z := 2 ^ (bits - 1) - 1.
Definition in_range (z : Z) : Prop := (min_int ≤ z ≤ max_int)%Z.
Definition wrap (z : Z) : Z :=
  ((z + 2 ^ (bits - 1)) `mod` 2 ^ bits - 2 ^ (bits - 1))%Z.
Definition add (a b : Z) : Z := wrap (a + b).
End GoInt.

(** Package [time]: an instant is a count of nanoseconds on the process
    clock, a [Duration] is an [int64] count of nanoseconds, and [Sub]
    saturates at the ends of the [Duration] range. *)
Module GoTime.
Definition Nanosecond : Z := 1.
Definition Second : Z := 1000000000 * Nanosecond.
Definition Minute : Z := 60 * Second.
Definition minDuration : Z := - 2 ^ 63.
Definition maxDuration : Z := 2 ^ 63 - 1.
Definition Sub (t u : Z) : Z :=
  if bool_decide (t - u < minDuration)%Z then minDuration
  else if bool_decide (maxDuration < t - u)%Z then maxDuration
  else (t - u)%Z.
Definition Add (t d : Z) : Z := (t + d)%Z.
End GoTime.

(** ** Data model *)

(** [type penguin struct]: one roster entry. *)
Record penguin : Type := mkPenguin {
  Id : string;
  Name : string;
  Bio : string;
  VisitCount : Z;
  FishCount : Z;
  BellyrubCount : Z
}.

(** [type penguinEntity struct]: one datastore record.  The field names carry
    a [db] prefix because the two structs share their field names. *)
Record penguinEntity : Type := mkEntity {
  dbId : string;
  dbVisitCount : Z;
  dbFishCount : Z;
  dbBellyrubCount : Z
}.

#[global] Instance penguin_eq_dec : EqDecision penguin.
Proof. solve_decision. Defined.
#[global] Instance penguinEntity_eq_dec : EqDecision penguinEntity.
Proof. solve_decision. Defined.

(** [var p penguinEntity]: Go's zero value. *)
Definition zeroEntity : penguinEntity := mkEntity "" 0 0 0.

Definition with_dbId (id : string) (e : penguinEntity) : penguinEntity :=
  mkEntity id (dbVisitCount e) (dbFishCount e) (dbBellyrubCount e).
Definition with_dbVisitCount (v : Z) (e : penguinEntity) : penguinEntity :=
  mkEntity (dbId e) v (dbFishCount e) (dbBellyrubCount e).
Definition with_dbFishCount (v : Z) (e : penguinEntity) : penguinEntity :=
  mkEntity (dbId e) (dbVisitCount e) v (dbBellyrubCount e).
Definition with_dbBellyrubCount (v : Z) (e : penguinEntity) : penguinEntity :=
  mkEntity (dbId e) (dbVisitCount e) (dbFishCount e) v.

Definition with_VisitCount (v : Z) (p : penguin) : penguin :=
  mkPenguin (Id p) (Name p) (Bio p) v (FishCount p) (BellyrubCount p).
Definition with_FishCount (v : Z) (p : penguin) : penguin :=
  mkPenguin (Id p) (Name p) (Bio p) (VisitCount p) v (BellyrubCount p).
Definition with_BellyrubCount (v : Z) (p : penguin) : penguin :=
  mkPenguin (Id p) (Name p) (Bio p) (VisitCount p) (FishCount p) v.

(** What a handler wrote to its [http.ResponseWriter]. *)
Inductive chunk : Type :=
| Greeting (n : nat)           (* rootHandler's text with len(penguins) *)
| Json (ps : list penguin).    (* string(p) for p = json.Marshal(penguins) *)

(** A call that reached the datastore service. *)
Inductive rpc : Type :=
| RpcGet (key : string)
| RpcPut (key : string) (e : penguinEntity) (failed : bool).

#[global] Instance rpc_eq_dec : EqDecision rpc.
Proof. solve_decision. Defined.

Definition is_get (c : rpc) : bool :=
  match c with RpcGet _ => true | RpcPut _ _ _ => false end.
Definition is_put (c : rpc) : bool :=
  match c with RpcGet _ => false | RpcPut _ _ _ => true end.

(** The package-level variables together with the collaborators a handler
    touches: the process clock, the datastore (kind "Entity", keyed by the
    string name of the key), the application log and the response body.
    The datastore is the key-value collaborator of the specification: a get
    finds the record stored under the key or reports that there is none, a
    put stores the record or fails and stores nothing.  [rpcs] is the
    history of datastore calls, oldest first. *)
Record world : Type := mkWorld {
  penguins : list penguin;
  lastUpdateTime : Z;
  clock : Z;
  store : gmap string penguinEntity;
  rpcs : list rpc;
  errlog : list string;
  body : list chunk
}.

Definition set_penguins (l : list penguin) (s : world) : world :=
  mkWorld l (lastUpdateTime s) (clock s) (store s) (rpcs s) (errlog s) (body s).
Definition set_last (t : Z) (s : world) : world :=
  mkWorld (penguins s) t (clock s) (store s) (rpcs s) (errlog s) (body s).
Definition set_clock (t : Z) (s : world) : world :=
  mkWorld (penguins s) (lastUpdateTime s) t (store s) (rpcs s) (errlog s) (body s).
Definition set_store (m : gmap string penguinEntity) (s : world) : world :=
  mkWorld (penguins s) (lastUpdateTime s) (clock s) m (rpcs s) (errlog s) (body s).
Definition add_rpc (c : rpc) (s : world) : world :=
  mkWorld (penguins s) (lastUpdateTime s) (clock s) (store s) (rpcs s ++ [c])
          (errlog s) (body s).
Definition add_log (m : string) (s : world) : world :=
  mkWorld (penguins s) (lastUpdateTime s) (clock s) (store s) (rpcs s)
          (errlog s ++ [m]) (body s).
Definition add_body (c : chunk) (s : world) : world :=
  mkWorld (penguins s) (lastUpdateTime s) (clock s) (store s) (rpcs s)
          (errlog s) (body s ++ [c]).

(** ** Programs *)

(** The effects of the package, one constructor per primitive the source
    uses.  What the environment decides is an argument of the operation:
    [time_Now d] reads the clock [d] nanoseconds after the previous reading,
    and [datastore_Put failed] is a put that the service fails or not. *)
Inductive op : Type :=
| time_Now (d : N)
| get_lastUpdateTime
| put_lastUpdateTime (t : Z)
| len_penguins
| penguins_at (i : nat)
| put_VisitCount (i : nat) (v : Z)
| put_FishCount (i : nat) (v : Z)
| put_BellyrubCount (i : nat) (v : Z)
| read_penguins
| mutex_Lock
| mutex_Unlock
| mutex_RLock
| mutex_RUnlock
| datastore_Get (key : string)
| datastore_Put (failed : bool) (key : string) (e : penguinEntity)
| c_Errorf (msg : string)
| fmt_Fprint (c : chunk).

(** What each primitive returns: [datastore_Get] answers [None] for
    [ErrNoSuchEntity], [datastore_Put] answers whether [err != nil]. *)
Definition res (o : op) : Type :=
  match o with
  | time_Now _ | get_lastUpdateTime => Z
  | len_penguins => nat
  | penguins_at _ => penguin
  | read_penguins => list penguin
  | datastore_Get _ => option penguinEntity
  | datastore_Put _ _ _ => bool
  | _ => unit
  end.

Inductive prog (A : Type) : Type :=
| Ret (a : A)
| Vis (o : op) (k : res o → prog A).
Arguments Ret {A} a.
Arguments Vis {A} o k.

Fixpoint bind {A B : Type} (p : prog A) (f : A → prog B) : prog B :=
  match p with
  | Ret a => f a
  | Vis o k => Vis o (fun x => bind (k x) f)
  end.

Definition call (o : op) : prog (res o) := Vis o Ret.

#[global] Instance prog_ret : MRet prog := @Ret.
#[global] Instance prog_bind : MBind prog := fun A B f p => bind p f.

(** ** Serial semantics *)

(** One primitive on the world.  [None] is a run-time panic (an index out of
    range).  The clock never goes back.  In a serial run every handler
    starts with the mutex free and releases what it takes, so the mutex
    operations neither wait nor change the world; they matter to the
    interleaving semantics further down. *)
Definition op_sem (o : op) (s : world) : option (res o * world) :=
  match o return option (res o * world) with
  | time_Now d =>
      let t := (clock s + Z.of_N d)%Z in Some (t, set_clock t s)
  | get_lastUpdateTime => Some (lastUpdateTime s, s)
  | put_lastUpdateTime t => Some (tt, set_last t s)
  | len_penguins => Some (length (penguins s), s)
  | penguins_at i => p ← penguins s !! i; Some (p, s)
  | put_VisitCount i v =>
      p ← penguins s !! i;
      Some (tt, set_penguins (<[i := with_VisitCount v p]> (penguins s)) s)
  | put_FishCount i v =>
      p ← penguins s !! i;
      Some (tt, set_penguins (<[i := with_FishCount v p]> (penguins s)) s)
  | put_BellyrubCount i v =>
      p ← penguins s !! i;
      Some (tt, set_penguins (<[i := with_BellyrubCount v p]> (penguins s)) s)
  | read_penguins => Some (penguins s, s)
  | mutex_Lock | mutex_Unlock | mutex_RLock | mutex_RUnlock => Some (tt, s)
  | datastore_Get key => Some (store s !! key, add_rpc (RpcGet key) s)
  | datastore_Put failed key e =>
      if failed then Some (true, add_rpc (RpcPut key e true) s)
      else Some (false, add_rpc (RpcPut key e false)
                                (set_store (<[key := e]> (store s)) s))
  | c_Errorf msg => Some (tt, add_log msg s)
  | fmt_Fprint c => Some (tt, add_body c s)
  end.

Fixpoint run {A : Type} (p : prog A) (s : world) : option (A * world) :=
  match p with
  | Ret a => Some (a, s)
  | Vis o k =>
      match op_sem o s with
      | Some (x, s') => run (k x) s'
      | None => None
      end
  end.

(** The primitives a serial run executes, in order. *)
Fixpoint trace {A : Type} (p : prog A) (s : world) : list op :=
  match p with
  | Ret _ => []
  | Vis o k =>
      o :: match op_sem o s with
           | Some (x, s') => trace (k x) s'
           | None => []
           end
  end.

(** ** The package, revision with [sync.RWMutex] *)

Definition ttl : Z := 10 * GoTime.Minute.

(** [time.Since(lastUpdateTime)]: the argument is read, then the clock. *)
Definition time_Since_lastUpdateTime (d : N) : prog Z :=
  t ← call get_lastUpdateTime;
  now ← call (time_Now d);
  mret (GoTime.Sub now t).

(** [func dbGetPenguin(c, id) penguinEntity] *)
Definition dbGetPenguin (id : string) : prog penguinEntity :=
  r ← call (datastore_Get id);
  match r with
  | Some p => mret p
  | None => mret (with_dbId id zeroEntity)
  end.

(** The body of [for i, p := range penguins] in [updatePenguinsStatistics],
    from index [i] with [todo] elements left. *)
Fixpoint refresh_from (i todo : nat) : prog unit :=
  match todo with
  | 0 => mret tt
  | S todo' =>
      p ← call (penguins_at i);
      penguin_db ← dbGetPenguin (Id p);
      call (put_VisitCount i (dbVisitCount penguin_db));;
      call (put_FishCount i (dbFishCount penguin_db));;
      call (put_BellyrubCount i (dbBellyrubCount penguin_db));;
      refresh_from (S i) todo'
  end.

(** [func updatePenguinsStatistics(c)]; the deferred unlock runs at the
    only exit that follows the lock. *)
Definition updatePenguinsStatistics (d1 d2 : N) : prog unit :=
  since ← time_Since_lastUpdateTime d1;
  if bool_decide (since ≤ ttl)%Z then mret tt
  else
    call mutex_Lock;;
    now ← call (time_Now d2);
    call (put_lastUpdateTime now);;
    n ← call len_penguins;
    refresh_from 0 n;;
    call mutex_Unlock.

(** [func updateHandler(w, r)] *)
Definition updateHandler (d : N) : prog unit :=
  now ← call (time_Now d);
  call (put_lastUpdateTime (GoTime.Add now (-20 * GoTime.Minute))).

(** The loop of [penguinExists], from index [i] with [todo] elements left;
    the result is the local [result] at the loop's exit. *)
Fixpoint exists_from (id : string) (i todo : nat) : prog bool :=
  match todo with
  | 0 => mret false
  | S todo' =>
      p ← call (penguins_at i);
      if bool_decide (Id p = id) then mret true
      else exists_from id (S i) todo'
  end.

(** [func penguinExists(id string) bool] *)
Definition penguinExists (id : string) : prog bool :=
  call mutex_RLock;;
  n ← call len_penguins;
  result ← exists_from id 0 n;
  call mutex_RUnlock;;
  mret result.

Definition put_error : string := "Error writing into the datastore: %v".

(** [func visitHandler(w, r)], with [penguin_id = r.FormValue("id")]. *)
Definition visitHandler (penguin_id : string) (failed : bool) : prog unit :=
  ok ← penguinExists penguin_id;
  if ok : bool then
    penguin_db ← dbGetPenguin penguin_id;
    let penguin_db :=
      with_dbVisitCount (GoInt.add (dbVisitCount penguin_db) 1) penguin_db in
    err ← call (datastore_Put failed penguin_id penguin_db);
    if err : bool then call (c_Errorf put_error) else mret tt
  else mret tt.

(** [func fishHandler(w, r)] *)
Definition fishHandler (penguin_id : string) (failed : bool) : prog unit :=
  ok ← penguinExists penguin_id;
  if ok : bool then
    penguin_db ← dbGetPenguin penguin_id;
    let penguin_db :=
      with_dbFishCount (GoInt.add (dbFishCount penguin_db) 1) penguin_db in
    err ← call (datastore_Put failed penguin_id penguin_db);
    if err : bool then call (c_Errorf put_error) else mret tt
  else mret tt.

(** [func bellyrubHandler(w, r)] *)
Definition bellyrubHandler (penguin_id : string) (failed : bool) : prog unit :=
  ok ← penguinExists penguin_id;
  if ok : bool then
    penguin_db ← dbGetPenguin penguin_id;
    let penguin_db :=
      with_dbBellyrubCount (GoInt.add (dbBellyrubCount penguin_db) 1)
                           penguin_db in
    err ← call (datastore_Put failed penguin_id penguin_db);
    if err : bool then call (c_Errorf put_error) else mret tt
  else mret tt.

(** [json.Marshal(penguins)] of a slice of structs of strings and ints: the
    encoding and a nil error. *)
Definition json_Marshal (ps : list penguin) : chunk * bool := (Json ps, false).

Definition marshal_error : string := "Can't create JSON response: %v".

(** [func penguinsHandler(w, r)] *)
Definition penguinsHandler (d1 d2 : N) : prog unit :=
  updatePenguinsStatistics d1 d2;;
  call mutex_RLock;;
  ps ← call read_penguins;
  let '(p, err) := json_Marshal ps in
  if err : bool then
    call (c_Errorf marshal_error);;
    call mutex_RUnlock
  else
    call (fmt_Fprint p);;
    call mutex_RUnlock.

(** [func rootHandler(w, r)] *)
Definition rootHandler : prog unit :=
  n ← call len_penguins;
  call (fmt_Fprint (Greeting n)).

(** The three stat routes, by the counter they target. *)
Inductive stat : Type := Visit | Fish | Bellyrub.

Definition statHandler (c : stat) : string → bool → prog unit :=
  match c with
  | Visit => visitHandler
  | Fish => fishHandler
  | Bellyrub => bellyrubHandler
  end.

(** The six routes registered by [init], each with what the environment
    decides while the request is served. *)
Inductive request : Type :=
| GetRoot
| GetPenguins (d1 d2 : N)
| GetUpdate (d : N)
| GetStat (c : stat) (id : string) (failed : bool).

Definition serve (r : request) : prog unit :=
  match r with
  | GetRoot => rootHandler
  | GetPenguins d1 d2 => penguinsHandler d1 d2
  | GetUpdate d => updateHandler d
  | GetStat c id failed => statHandler c id failed
  end.

(** [func init()]: the roster decoded from penguins.json and the timestamp
    twenty minutes before the clock reading. *)
Definition init_world (ps : list penguin) (now : Z)
    (db : gmap string penguinEntity) : world :=
  mkWorld ps (GoTime.Add now (-20 * GoTime.Minute)) now db [] [] [].

(** ** What the handlers compute *)

(** The record [dbGetPenguin] hands back for [id]. *)
Definition fetched (db : gmap string penguinEntity) (id : string)
    : penguinEntity :=
  match db !! id with
  | Some p => p
  | None => mkEntity id 0 0 0
  end.

(** A roster entry after its three counters were overwritten from [e]. *)
Definition applyCounters (e : penguinEntity) (p : penguin) : penguin :=
  mkPenguin (Id p) (Name p) (Bio p)
            (dbVisitCount e) (dbFishCount e) (dbBellyrubCount e).

Definition refreshed (db : gmap string penguinEntity) (p : penguin) : penguin :=
  applyCounters (fetched db (Id p)) p.

(** The world a reconciliation pass that reads the clock at [now] leaves. *)
Definition refresh_world (now : Z) (s : world) : world :=
  mkWorld (refreshed (store s) <$> penguins s) now now (store s)
          (rpcs s ++ (RpcGet ∘ Id <$> penguins s)) (errlog s) (body s).

(** Whether some roster entry carries [id]. *)
Definition has_id (id : string) (ps : list penguin) : bool :=
  existsb (fun p => bool_decide (Id p = id)) ps.

(** The counter a stat handler increments. *)
Definition bump (c : stat) (e : penguinEntity) : penguinEntity :=
  match c with
  | Visit => with_dbVisitCount (GoInt.add (dbVisitCount e) 1) e
  | Fish => with_dbFishCount (GoInt.add (dbFishCount e) 1) e
  | Bellyrub => with_dbBellyrubCount (GoInt.add (dbBellyrubCount e) 1) e
  end.

Definition counter (c : stat) (e : penguinEntity) : Z :=
  match c with
  | Visit => dbVisitCount e
  | Fish => dbFishCount e
  | Bellyrub => dbBellyrubCount e
  end.

(** The world after a stat handler ran for an [id] of the roster. *)
Definition after_event (c : stat) (id : string) (failed : bool) (s : world)
    : world :=
  let e := bump c (fetched (store s) id) in
  let s1 := add_rpc (RpcGet id) s in
  if failed then add_log put_error (add_rpc (RpcPut id e true) s1)
  else add_rpc (RpcPut id e false) (set_store (<[id := e]> (store s)) s1).

(** The primitives one round of the refresh loop executes for the entry [p]
    at index [i], and the primitives of the loop over [ps] from index [i]. *)
Definition refresh_round_ops (db : gmap string penguinEntity) (i : nat)
    (p : penguin) : list op :=
  let e := fetched db (Id p) in
  [penguins_at i; datastore_Get (Id p);
   put_VisitCount i (dbVisitCount e);
   put_FishCount i (dbFishCount e);
   put_BellyrubCount i (dbBellyrubCount e)].

Fixpoint refresh_ops (db : gmap string penguinEntity) (i : nat)
    (ps : list penguin) : list op :=
  match ps with
  | [] => []
  | p :: ps' => refresh_round_ops db i p ++ refresh_ops db (S i) ps'
  end.

(** ** Serial histories *)

(** The worlds the server can be in between two requests served one after
    the other: after [init] on a fresh datastore, after a restart that keeps
    the datastore, and after any handler ran to completion. *)
Inductive reachable : world → Prop :=
| reach_init (ps : list penguin) (now : Z) :
    reachable (init_world ps now ∅)
| reach_restart (s : world) (ps : list penguin) (now : Z) :
    reachable s → reachable (init_world ps now (store s))
| reach_serve (s s' : world) (r : request) :
    reachable s → run (serve r) s = Some (tt, s') → reachable s'.

(** ** Sample data: the roster of the scenario *)

Definition pingu : penguin := mkPenguin "p1" "Pingu" "" 0 0 0.
Definition pinga : penguin := mkPenguin "p2" "Pinga" "" 0 0 0.

Definition fresh_world : world := init_world [pingu; pinga] 0 ∅.

(** A datastore whose record for "p1" has its visit counter at the top of
    the [int] range. *)
Definition saturated_world : world :=
  init_world [pingu] 0 {[ "p1" := mkEntity "p1" GoInt.max_int 0 0 ]}.

(** Every record sits under the key that its [Id] field names. *)
Definition store_keyed (db : gmap string penguinEntity) : Prop :=
  ∀ k e, db !! k = Some e → dbId e = k.

(** ** Locking and interleaved handlers *)

(** What one goroutine holds of the package's [mutex]. *)
Inductive held : Type := NoLock | ReadLock | WriteLock.

Definition held_after (o : op) (h : held) : held :=
  match o with
  | mutex_Lock => WriteLock
  | mutex_RLock => ReadLock
  | mutex_Unlock | mutex_RUnlock => NoLock
  | _ => h
  end.

(** Each primitive of a trace with what the goroutine holds when it runs. *)
Fixpoint annotate (h : held) (tr : list op) : list (op * held) :=
  match tr with
  | [] => []
  | o :: tr' => (o, h) :: annotate (held_after o h) tr'
  end.

(** The primitives that read entries of [penguins], those that assign to
    them, those that assign to the cache (entries or timestamp), and those
    the refresh consists of, from the staleness check on. *)
Definition reads_roster (o : op) : bool :=
  match o with
  | penguins_at _ | read_penguins => true
  | _ => false
  end.

Definition writes_roster (o : op) : bool :=
  match o with
  | put_VisitCount _ _ | put_FishCount _ _ | put_BellyrubCount _ _ => true
  | _ => false
  end.

Definition writes_cache (o : op) : bool :=
  match o with
  | put_lastUpdateTime _
  | put_VisitCount _ _ | put_FishCount _ _ | put_BellyrubCount _ _ => true
  | _ => false
  end.

Definition refresh_access (o : op) : bool :=
  match o with
  | get_lastUpdateTime | put_lastUpdateTime _ | penguins_at _
  | put_VisitCount _ _ | put_FishCount _ _ | put_BellyrubCount _ _
  | datastore_Get _ => true
  | _ => false
  end.

(** [sync.RWMutex]: whether a writer is in, and how many readers. *)
Record rwmutex : Type := mkMutex { writer : bool; readers : nat }.

(** [Lock] waits until nobody is in, [RLock] until no writer is in; an
    unlock of a mutex that is not locked that way is a fatal error.  (Go also
    holds new readers back while a writer waits, which only removes
    interleavings.) *)
Definition mutex_enabled (o : op) (m : rwmutex) : bool :=
  match o with
  | mutex_Lock => negb (writer m) && bool_decide (readers m = 0)
  | mutex_RLock => negb (writer m)
  | mutex_Unlock => writer m
  | mutex_RUnlock => bool_decide (0 < readers m)
  | _ => true
  end.

Definition mutex_after (o : op) (m : rwmutex) : rwmutex :=
  match o with
  | mutex_Lock => mkMutex true (readers m)
  | mutex_RLock => mkMutex (writer m) (S (readers m))
  | mutex_Unlock => mkMutex false (readers m)
  | mutex_RUnlock => mkMutex (writer m) (pred (readers m))
  | _ => m
  end.

(** A goroutine serving a request: what is left of its handler, and what it
    holds.  A configuration: the world, the mutex and the goroutines. *)
Definition goroutine : Type := prog unit * held.
Definition config : Type := world * rwmutex * list goroutine.

(** One step of the server: a request arrives and gets its goroutine, or
    some goroutine that is not waiting executes its next primitive. *)
Inductive cstep : config → config → Prop :=
| cstep_arrive (w : world) (m : rwmutex) (ts : list goroutine) (r : request) :
    cstep (w, m, ts) (w, m, ts ++ [(serve r, NoLock)])
| cstep_run (w w' : world) (m : rwmutex) (ts : list goroutine) (i : nat)
      (o : op) (k : res o → prog unit) (h : held) (x : res o) :
    ts !! i = Some (Vis o k, h) →
    mutex_enabled o m = true →
    op_sem o w = Some (x, w') →
    cstep (w, m, ts)
          (w', mutex_after o m, <[i := (k x, held_after o h)]> ts).

Inductive creachable : config → Prop :=
| creach_init (ps : list penguin) (now : Z) (db : gmap string penguinEntity) :
    creachable (init_world ps now db, mkMutex false 0, [])
| creach_step (c c' : config) :
    creachable c → cstep c c' → creachable c'.

(** What a primitive requires of the lock its goroutine holds. *)
Definition allowed (h : held) (o : op) : Prop :=
  match o with
  | mutex_Lock | mutex_RLock => h = NoLock
  | mutex_Unlock => h = WriteLock
  | mutex_RUnlock => h = ReadLock
  | put_VisitCount _ _ | put_FishCount _ _ | put_BellyrubCount _ _ =>
      h = WriteLock
  | penguins_at _ | read_penguins => h ≠ NoLock
  | _ => True
  end.

(** [p], started holding [h], meets [allowed] at every primitive whatever
    the primitives answer, and ends with a result and a lock state in [Q]. *)
Fixpoint locks {A : Type} (p : prog A) (h : held) (Q : A → held → Prop)
    : Prop :=
  match p with
  | Ret a => Q a h
  | Vis o k => allowed h o ∧ ∀ x, locks (k x) (held_after o h) Q
  end.

Definition disciplined (t : goroutine) : Prop :=
  locks t.1 t.2 (fun _ h => h = NoLock).

Definition reading (t : goroutine) : nat :=
  match t.2 with ReadLock => 1 | _ => 0 end.
Definition writing (t : goroutine) : nat :=
  match t.2 with WriteLock => 1 | _ => 0 end.

(** The invariant of the interleaved server. *)
Definition lock_inv (c : config) : Prop :=
  let '(_, m, ts) := c in
  Forall disciplined ts
  ∧ sum_list_with reading ts = readers m
  ∧ sum_list_with writing ts = (if writer m then 1 else 0)
  ∧ (writer m = true → readers m = 0).

(** No primitive in [P] occurs in [p], whatever the primitives answer. *)
Fixpoint never {A : Type} (P : op → bool) (p : prog A) : Prop :=
  match p with
  | Ret _ => True
  | Vis o k => P o = false ∧ ∀ x, never P (k x)
  end.

(** The mutex as it stands when a single goroutine holds [h] of it, and the
    mutex after the primitives of a trace, if none of them has to wait. *)
Definition mutex_of (h : held) : rwmutex :=
  match h with
  | NoLock => mkMutex false 0
  | ReadLock => mkMutex false 1
  | WriteLock => mkMutex true 0
  end.

Fixpoint mutex_run (tr : list op) (m : rwmutex) : option rwmutex :=
  match tr with
  | [] => Some m
  | o :: tr' =>
      if mutex_enabled o m then mutex_run tr' (mutex_after o m) else None
  end.

(** The datastore discipline of a program: every put stores under its key a
    record whose [Id] is that key, as long as every get was answered with a
    record whose [Id] is the key asked for. *)
Definition good_put (o : op) : Prop :=
  match o with
  | datastore_Put _ key e => dbId e = key
  | _ => True
  end.

Definition good_answer (o : op) : res o → Prop :=
  match o return res o → Prop with
  | datastore_Get key => fun x => ∀ e, x = Some e → dbId e = key
  | _ => fun _ => True
  end.

Fixpoint keyed {A : Type} (p : prog A) : Prop :=
  match p with
  | Ret _ => True
  | Vis o k => good_put o ∧ ∀ x, good_answer o x → keyed (k x)
  end.

Definition keyed_inv (c : config) : Prop :=
  let '(w, _, ts) := c in
  store_keyed (store w) ∧ Forall (fun t : goroutine => keyed t.1) ts.

(** Running an interleaving: goroutine [i] executes its next primitive if it
    has one and does not have to wait; [schedule] does so for a list of
    goroutine indices in turn. *)
Definition step_at (i : nat) (c : config) : option config :=
  let '(w, m, ts) := c in
  match ts !! i with
  | Some (Vis o k, h) =>
      if mutex_enabled o m then
        match op_sem o w with
        | Some (x, w') =>
            Some (w', mutex_after o m, <[i := (k x, held_after o h)]> ts)
        | None => None
        end
      else None
  | _ => None
  end.

Fixpoint schedule (sched : list nat) (c : config) : option config :=
  match sched with
  | [] => Some c
  | i :: sched' =>
      match step_at i c with
      | Some c' => schedule sched' c'
      | None => None
      end
  end.

(** Two requests that have just arrived, one for the roster and one visit
    for "p1", on a world whose datastore has a record for "p1". *)
Definition stocked_world : world :=
  init_world [pingu; pinga] 0 {[ "p1" := mkEntity "p1" 5 2 1 ]}.

Definition two_requests : config :=
  (stocked_world, mkMutex false 0,
   [(serve (GetPenguins 0 0), NoLock);
    (serve (GetStat Visit "p1" false), NoLock)]).

(** The same configuration once the roster request has run up to and
    including its first counter assignment: it is in the middle of a pass. *)
Definition mid_pass : config :=
  default two_requests (schedule [0; 0; 0; 0; 0; 0; 0; 0; 0] two_requests).

(** ** The earlier revision, [app/app.go], guarded by a [sync.Mutex]

    It differs in where the lock is taken (around the whole of
    [penguinsHandler], not inside the refresher, and not at all in
    [penguinExists]) and in discarding the error of [datastore.Put]. *)
Module AppV1.

(** [func updatePenguinsStatistics(c)] *)
Definition updatePenguinsStatistics (d1 d2 : N) : prog unit :=
  since ← time_Since_lastUpdateTime d1;
  if bool_decide (since ≤ ttl)%Z then mret tt
  else
    now ← call (time_Now d2);
    call (put_lastUpdateTime now);;
    n ← call len_penguins;
    refresh_from 0 n.

(** [func penguinsHandler(w, r)] *)
Definition penguinsHandler (d1 d2 : N) : prog unit :=
  call mutex_Lock;;
  updatePenguinsStatistics d1 d2;;
  ps ← call read_penguins;
  let '(p, err) := json_Marshal ps in
  if err : bool then
    call (c_Errorf marshal_error);;
    call mutex_Unlock
  else
    call (fmt_Fprint p);;
    call mutex_Unlock.

(** [func penguinExists(id string) bool] *)
Definition penguinExists (id : string) : prog bool :=
  n ← call len_penguins;
  exists_from id 0 n.

(** [func visitHandler(w, r)], ending in
    [_, _ = datastore.Put(c, k, &penguin_db)]. *)
Definition visitHandler (penguin_id : string) (failed : bool) : prog unit :=
  ok ← penguinExists penguin_id;
  if ok : bool then
    penguin_db ← dbGetPenguin penguin_id;
    let penguin_db :=
      with_dbVisitCount (GoInt.add (dbVisitCount penguin_db) 1) penguin_db in
    call (datastore_Put failed penguin_id penguin_db);;
    mret tt
  else mret tt.

(** [func fishHandler(w, r)] *)
Definition fishHandler (penguin_id : string) (failed : bool) : prog unit :=
  ok ← penguinExists penguin_id;
  if ok : bool then
    penguin_db ← dbGetPenguin penguin_id;
    let penguin_db :=
      with_dbFishCount (GoInt.add (dbFishCount penguin_db) 1) penguin_db in
    call (datastore_Put failed penguin_id penguin_db);;
    mret tt
  else mret tt.

(** [func bellyrubHandler(w, r)] *)
Definition bellyrubHandler (penguin_id : string) (failed : bool)
    : prog unit :=
  ok ← penguinExists penguin_id;
  if ok : bool then
    penguin_db ← dbGetPenguin penguin_id;
    let penguin_db :=
      with_dbBellyrubCount (GoInt.add (dbBellyrubCount penguin_db) 1)
                           penguin_db in
    call (datastore_Put failed penguin_id penguin_db);;
    mret tt
  else mret tt.

Definition statHandler (c : stat) : string → bool → prog unit :=
  match c with
  | Visit => visitHandler
  | Fish => fishHandler
  | Bellyrub => bellyrubHandler
  end.

(** [func rootHandler(w, r)]: [fmt.Fprint] of the text and [len(penguins)],
    which prints the same as the later [Fprintf]. *)
Definition rootHandler : prog unit :=
  n ← call len_penguins;
  call (fmt_Fprint (Greeting n)).

(** [func updateHandler(w, r)] *)
Definition updateHandler (d : N) : prog unit :=
  now ← call (time_Now d);
  call (put_lastUpdateTime (GoTime.Add now (-20 * GoTime.Minute))).

(** The six routes of the earlier revision. *)
Definition serve (r : request) : prog unit :=
  match r with
  | GetRoot => rootHandler
  | GetPenguins d1 d2 => penguinsHandler d1 d2
  | GetUpdate d => updateHandler d
  | GetStat c id failed => statHandler c id failed
  end.

End AppV1.

(** Unfolds the monad notation of a handler down to its primitives. *)
Ltac prog_simpl :=
  unfold mbind, prog_bind, mret, prog_ret, call; simpl.
(** ** Requests in a row, and what a roster entry keeps *)

(** The fields of a roster entry that no handler assigns. *)
Definition static (p : penguin) : string * string * string :=
  (Id p, Name p, Bio p).

(** Requests served one after the other. *)
Fixpoint serve_all (rs : list request) : prog unit :=
  match rs with
  | [] => mret tt
  | r :: rs' => serve r;; serve_all rs'
  end.

(** ** What the goroutines may assume and must respect *)

(** [p] performs only primitives in [G] and ends with a result in [Q], as
    long as every primitive is answered within [R]. *)
Fixpoint safe {A : Type} (G : op → Prop) (R : ∀ o : op, res o → Prop)
    (p : prog A) (Q : A → Prop) : Prop :=
  match p with
  | Ret a => Q a
  | Vis o k => G o ∧ ∀ x, R o x → safe G R (k x) Q
  end.

(** For a roster whose ids are [ids]: every index into the roster is within
    its length and every put goes to one of its ids ... *)
Definition within_roster (ids : list string) (o : op) : Prop :=
  match o with
  | penguins_at i
  | put_VisitCount i _ | put_FishCount i _ | put_BellyrubCount i _ =>
      i < length ids
  | datastore_Put _ key _ => key ∈ ids
  | _ => True
  end.

(** ... given that [len(penguins)] is the length of [ids] and every entry
    read carries one of them. *)
Definition roster_answer (ids : list string) (o : op) : res o → Prop :=
  match o return res o → Prop with
  | len_penguins => fun n => n = length ids
  | penguins_at _ => fun p => Id p ∈ ids
  | _ => fun _ => True
  end.

Definition roster_inv (ids : list string) (c : config) : Prop :=
  let '(w, _, ts) := c in
  Id <$> penguins w = ids
  ∧ Forall (fun t : goroutine =>
              safe (within_roster ids) (roster_answer ids) t.1
                   (fun _ => True)) ts.

(** A goroutine that has returned. *)
Definition finished (t : goroutine) : bool :=
  match t.1 with
  | Ret _ => true
  | Vis _ _ => false
  end.

#[global] Instance held_eq_dec : EqDecision held.
Proof. solve_decision. Defined.

(** ** Footprints *)

Definition calls_datastore (o : op) : bool :=
  match o with
  | datastore_Get _ | datastore_Put _ _ _ => true
  | _ => false
  end.

Definition puts_record (o : op) : bool :=
  match o with
  | datastore_Put _ _ _ => true
  | _ => false
  end.

Definition uses_mutex (o : op) : bool :=
  match o with
  | mutex_Lock | mutex_Unlock | mutex_RLock | mutex_RUnlock => true
  | _ => false
  end.

Definition writes_response (o : op) : bool :=
  match o with
  | fmt_Fprint _ => true
  | _ => false
  end.

Definition writes_log (o : op) : bool :=
  match o with
  | c_Errorf _ => true
  | _ => false
  end.

(** ** The parts of the roster request *)

(** The stale branch of [updatePenguinsStatistics], from [mutex.Lock()] to
    the deferred unlock, and what [penguinsHandler] does once the refresher
    has returned. *)
Definition refresh_pass (d2 : N) : prog unit :=
  call mutex_Lock;;
  now ← call (time_Now d2);
  call (put_lastUpdateTime now);;
  n ← call len_penguins;
  refresh_from 0 n;;
  call mutex_Unlock.

Definition roster_reply : prog unit :=
  call mutex_RLock;;
  ps ← call read_penguins;
  let '(p, err) := json_Marshal ps in
  if err : bool then
    call (c_Errorf marshal_error);;
    call mutex_RUnlock
  else
    call (fmt_Fprint p);;
    call mutex_RUnlock.

(** ** Clock readings *)

(** The clock reading a primitive answers with, if it is one. *)
Definition as_time (o : op) : res o → option Z :=
  match o return res o → option Z with
  | time_Now _ => fun x => Some x
  | _ => fun _ => None
  end.

(** [p] only ever stores in [lastUpdateTime] an instant that is not after
    the latest clock reading it knows of, which is [c0] to start with. *)
Fixpoint timely {A : Type} (c0 : Z) (p : prog A) : Prop :=
  match p with
  | Ret _ => True
  | Vis o k =>
      (∀ t, o = put_lastUpdateTime t → (t ≤ c0)%Z)
      ∧ ∀ x, (∀ z, as_time o x = Some z → (c0 ≤ z)%Z) →
             timely (default c0 (as_time o x)) (k x)
  end.

Definition time_inv (c : config) : Prop :=
  let '(w, _, ts) := c in
  (lastUpdateTime w ≤ clock w)%Z
  ∧ Forall (fun t : goroutine => ∃ c0, (c0 ≤ clock w)%Z ∧ timely c0 t.1) ts.

(** ** Basic facts *)

Lemma run_bind {A B} (p : prog A) (f : A → prog B) (s : world) :
  run (bind p f) s =
  match run p s with
  | Some (a, s') => run (f a) s'
  | None => None
  end.
Proof.
  revert s. induction p as [a | o k IH]; intros s; simpl; [done |].
  destruct (op_sem o s) as [[x s'] |]; [apply IH | done].
Qed.

Lemma trace_bind {A B} (p : prog A) (f : A → prog B) (s : world) :
  trace (bind p f) s =
  trace p s ++ match run p s with
               | Some (a, s') => trace (f a) s'
               | None => []
               end.
Proof.
  revert s. induction p as [a | o k IH]; intros s; simpl; [done |].
  f_equal. destruct (op_sem o s) as [[x s'] |]; [apply IH | done].
Qed.

Lemma GoInt_wrap_id (z : Z) : GoInt.in_range z → GoInt.wrap z = z.
Proof.
  unfold GoInt.in_range, GoInt.wrap, GoInt.min_int, GoInt.max_int, GoInt.bits.
  change (2 ^ (64 - 1))%Z with (2 ^ 63)%Z.
  intros H. rewrite Z.mod_small; lia.
Qed.

Lemma GoInt_wrap_range (z : Z) : GoInt.in_range (GoInt.wrap z).
Proof.
  unfold GoInt.in_range, GoInt.wrap, GoInt.min_int, GoInt.max_int, GoInt.bits.
  change (2 ^ (64 - 1))%Z with (2 ^ 63)%Z.
  pose proof (Z.mod_pos_bound (z + 2 ^ 63) (2 ^ 64)). lia.
Qed.

(** [Sub] saturates far above the TTL, so the test of the source is the
    test on the exact difference. *)
Lemma Sub_le_ttl (t u : Z) : (GoTime.Sub t u ≤ ttl)%Z ↔ (t - u ≤ ttl)%Z.
Proof.
  unfold GoTime.Sub, ttl, GoTime.minDuration, GoTime.maxDuration,
    GoTime.Minute, GoTime.Second, GoTime.Nanosecond.
  repeat case_bool_decide; lia.
Qed.

(** ** The handlers in the serial semantics *)

Lemma run_exists_from (id : string) (pre rest : list penguin) (s : world) :
  penguins s = pre ++ rest →
  run (exists_from id (length pre) (length rest)) s = Some (has_id id rest, s).
Proof.
  revert pre. induction rest as [| p rest IH]; intros pre Hs; [done |].
  prog_simpl. rewrite Hs, list_lookup_middle by done. simpl.
  case_bool_decide; simpl; [done |].
  specialize (IH (pre ++ [p])). rewrite length_app, Nat.add_1_r in IH.
  apply IH. by rewrite <- app_assoc.
Qed.

Lemma run_penguinExists (id : string) (s : world) :
  run (penguinExists id) s = Some (has_id id (penguins s), s).
Proof.
  unfold penguinExists. prog_simpl.
  rewrite run_bind, (run_exists_from id [] (penguins s)) by done. done.
Qed.

Lemma run_dbGetPenguin (id : string) (s : world) :
  run (dbGetPenguin id) s = Some (fetched (store s) id, add_rpc (RpcGet id) s).
Proof.
  unfold dbGetPenguin, fetched. prog_simpl.
  destruct (store s !! id); done.
Qed.

Lemma insert_middle {A} (l1 l2 : list A) (x y : A) :
  <[length l1 := y]> (l1 ++ x :: l2) = l1 ++ y :: l2.
Proof.
  rewrite <- (Nat.add_0_r (length l1)) at 1. by rewrite insert_app_r.
Qed.

(** One round of the loop: the three assignments to [penguins[i]]. *)
Lemma run_refresh_round (pre rest : list penguin) (p : penguin) (s : world)
    (k : prog unit) :
  penguins s = pre ++ p :: rest →
  let i := length pre in
  let e := fetched (store s) (Id p) in
  run (p0 ← call (penguins_at i);
       penguin_db ← dbGetPenguin (Id p0);
       call (put_VisitCount i (dbVisitCount penguin_db));;
       call (put_FishCount i (dbFishCount penguin_db));;
       call (put_BellyrubCount i (dbBellyrubCount penguin_db));;
       k) s
  = run k (set_penguins (pre ++ applyCounters e p :: rest)
                        (add_rpc (RpcGet (Id p)) s)).
Proof.
  intros Hs i e. subst i e. prog_simpl.
  rewrite Hs, list_lookup_middle by done. simpl.
  unfold fetched. destruct s as [ps lt ck db rp lg bd]; simpl in *. subst ps.
  destruct (db !! Id p) as [r |]; prog_simpl;
    rewrite ?list_lookup_middle by done; simpl;
    rewrite ?insert_middle, ?list_lookup_middle by done; simpl;
    rewrite ?insert_middle, ?list_lookup_middle by done; simpl;
    rewrite ?insert_middle; done.
Qed.

Lemma run_refresh_from (pre rest : list penguin) (s : world) :
  penguins s = pre ++ rest →
  run (refresh_from (length pre) (length rest)) s =
  Some (tt, mkWorld (pre ++ (refreshed (store s) <$> rest))
                    (lastUpdateTime s) (clock s) (store s)
                    (rpcs s ++ (RpcGet ∘ Id <$> rest)) (errlog s) (body s)).
Proof.
  revert pre s. induction rest as [| p rest IH]; intros pre s Hs.
  - destruct s; simpl in *. subst. by rewrite !app_nil_r.
  - etrans; [apply (run_refresh_round pre rest p s
                      (refresh_from (S (length pre)) (length rest)) Hs) |].
    specialize (IH (pre ++ [applyCounters (fetched (store s) (Id p)) p])).
    rewrite length_app, Nat.add_1_r in IH. rewrite IH.
    + destruct s; simpl. by rewrite <- !app_assoc.
    + simpl. by rewrite <- app_assoc.
Qed.

Lemma trace_refresh_round (pre rest : list penguin) (p : penguin) (s : world)
    (k : prog unit) :
  penguins s = pre ++ p :: rest →
  let i := length pre in
  let e := fetched (store s) (Id p) in
  trace (p0 ← call (penguins_at i);
         penguin_db ← dbGetPenguin (Id p0);
         call (put_VisitCount i (dbVisitCount penguin_db));;
         call (put_FishCount i (dbFishCount penguin_db));;
         call (put_BellyrubCount i (dbBellyrubCount penguin_db));;
         k) s
  = refresh_round_ops (store s) i p ++
    trace k (set_penguins (pre ++ applyCounters e p :: rest)
                          (add_rpc (RpcGet (Id p)) s)).
Proof.
  intros Hs i e. subst i e. prog_simpl.
  rewrite Hs, list_lookup_middle by done. simpl.
  unfold refresh_round_ops, fetched.
  destruct s as [ps lt ck db rp lg bd]; simpl in *. subst ps.
  destruct (db !! Id p) as [r |]; prog_simpl;
    rewrite ?list_lookup_middle by done; simpl;
    rewrite ?insert_middle, ?list_lookup_middle by done; simpl;
    rewrite ?insert_middle, ?list_lookup_middle by done; simpl;
    rewrite ?insert_middle; done.
Qed.

Lemma trace_refresh_from (pre rest : list penguin) (s : world) :
  penguins s = pre ++ rest →
  trace (refresh_from (length pre) (length rest)) s =
  refresh_ops (store s) (length pre) rest.
Proof.
  revert pre s. induction rest as [| p rest IH]; intros pre s Hs; [done |].
  etrans; [apply (trace_refresh_round pre rest p s
                    (refresh_from (S (length pre)) (length rest)) Hs) |].
  simpl. f_equal.
  specialize (IH (pre ++ [applyCounters (fetched (store s) (Id p)) p])).
  rewrite length_app, Nat.add_1_r in IH. rewrite IH; [done |].
  simpl. by rewrite <- app_assoc.
Qed.

(** The stale branch of [updatePenguinsStatistics]. *)
Lemma run_update_stale (d1 d2 : N) (s : world) :
  (ttl < clock s + Z.of_N d1 - lastUpdateTime s)%Z →
  run (updatePenguinsStatistics d1 d2) s =
  Some (tt, refresh_world (clock s + Z.of_N d1 + Z.of_N d2) s).
Proof.
  intros Hstale. unfold updatePenguinsStatistics. prog_simpl.
  rewrite bool_decide_eq_false_2 by (rewrite Sub_le_ttl; lia).
  prog_simpl. rewrite run_bind.
  rewrite (run_refresh_from [] (penguins s)) by done. done.
Qed.

Lemma run_update_fresh (d1 d2 : N) (s : world) :
  (clock s + Z.of_N d1 - lastUpdateTime s ≤ ttl)%Z →
  run (updatePenguinsStatistics d1 d2) s =
  Some (tt, set_clock (clock s + Z.of_N d1) s).
Proof.
  intros Hfresh. unfold updatePenguinsStatistics. prog_simpl.
  rewrite bool_decide_eq_true_2 by (rewrite Sub_le_ttl; lia). done.
Qed.

Lemma run_updateHandler (d : N) (s : world) :
  run (updateHandler d) s =
  Some (tt, set_last (GoTime.Add (clock s + Z.of_N d) (-20 * GoTime.Minute))
                     (set_clock (clock s + Z.of_N d) s)).
Proof. done. Qed.

(** A stat handler either ignores the request or does one get and one put. *)
Lemma run_statHandler (c : stat) (id : string) (failed : bool) (s : world) :
  run (statHandler c id failed) s =
  Some (tt, if has_id id (penguins s) then after_event c id failed s else s).
Proof.
  destruct c; unfold statHandler;
    [unfold visitHandler | unfold fishHandler | unfold bellyrubHandler];
    unfold mbind, prog_bind; rewrite run_bind, run_penguinExists;
    (destruct (has_id id (penguins s)); [| done]);
    rewrite run_bind, run_dbGetPenguin; unfold after_event;
    destruct failed; done.
Qed.

Lemma has_id_true (id : string) (ps : list penguin) :
  has_id id ps = true ↔ ∃ p, p ∈ ps ∧ Id p = id.
Proof.
  unfold has_id. rewrite existsb_exists. split.
  - intros (p & Hin & Hp). exists p. rewrite list_elem_of_In.
    by apply bool_decide_eq_true in Hp.
  - intros (p & Hin & Hp). exists p. rewrite <- list_elem_of_In.
    by rewrite bool_decide_eq_true.
Qed.

Lemma has_id_false (id : string) (ps : list penguin) :
  has_id id ps = false ↔ ∀ p, p ∈ ps → Id p ≠ id.
Proof.
  rewrite <- not_true_iff_false, has_id_true. split.
  - intros Hno p Hin Hp. apply Hno. by exists p.
  - intros Hall (p & Hin & Hp). by apply (Hall p).
Qed.

(** ** The refresh policy *)

Lemma trace_update_stale (d1 d2 : N) (s : world) :
  (ttl < clock s + Z.of_N d1 - lastUpdateTime s)%Z →
  trace (updatePenguinsStatistics d1 d2) s =
  [get_lastUpdateTime; time_Now d1; mutex_Lock; time_Now d2;
   put_lastUpdateTime (clock s + Z.of_N d1 + Z.of_N d2); len_penguins]
  ++ refresh_ops (store s) 0 (penguins s) ++ [mutex_Unlock].
Proof.
  intros Hstale. unfold updatePenguinsStatistics. prog_simpl.
  rewrite bool_decide_eq_false_2 by (rewrite Sub_le_ttl; lia).
  prog_simpl. do 6 f_equal. rewrite trace_bind.
  rewrite (trace_refresh_from [] (penguins s)),
    (run_refresh_from [] (penguins s)) by done.
  done.
Qed.

Lemma refreshed_lookup (db : gmap string penguinEntity) (ps : list penguin)
    (i : nat) (p : penguin) :
  ps !! i = Some p → (refreshed db <$> ps) !! i = Some (refreshed db p).
Proof. intros H. by rewrite list_lookup_fmap, H. Qed.

(** C1: within the TTL [updatePenguinsStatistics] reads the timestamp and the
    clock and nothing else: no datastore call, roster and [lastUpdateTime]
    unchanged.  Consequently two calls whose staleness checks are at most the
    TTL apart make at most one pass over the roster between them. *)
Theorem maybeRefresh_within_ttl (s : world) (d1 d2 d3 d4 : N) :
  ((clock s + Z.of_N d1 - lastUpdateTime s ≤ ttl)%Z →
     run (updatePenguinsStatistics d1 d2) s
       = Some (tt, set_clock (clock s + Z.of_N d1) s)
     ∧ trace (updatePenguinsStatistics d1 d2) s
       = [get_lastUpdateTime; time_Now d1])
  ∧ ((Z.of_N d2 + Z.of_N d3 ≤ ttl)%Z →
     ∃ s1 s2,
       run (updatePenguinsStatistics d1 d2) s = Some (tt, s1)
       ∧ run (updatePenguinsStatistics d3 d4) s1 = Some (tt, s2)
       ∧ (rpcs s2 = rpcs s
          ∨ rpcs s2 = rpcs s ++ (RpcGet ∘ Id <$> penguins s))).
Proof.
  split.
  - intros Hfresh. split; [by apply run_update_fresh |].
    unfold updatePenguinsStatistics. prog_simpl.
    by rewrite bool_decide_eq_true_2 by (rewrite Sub_le_ttl; lia).
  - intros Hwin.
    destruct (decide (clock s + Z.of_N d1 - lastUpdateTime s ≤ ttl)%Z)
      as [Hfresh | Hstale].
    + exists (set_clock (clock s + Z.of_N d1) s).
      set (s1 := set_clock _ s).
      destruct (decide (clock s1 + Z.of_N d3 - lastUpdateTime s1 ≤ ttl)%Z)
        as [Hfresh2 | Hstale2].
      * exists (set_clock (clock s1 + Z.of_N d3) s1).
        split; [by apply run_update_fresh |].
        split; [by apply run_update_fresh |]. by left.
      * exists (refresh_world (clock s1 + Z.of_N d3 + Z.of_N d4) s1).
        split; [by apply run_update_fresh |].
        split; [apply run_update_stale; lia |]. by right.
    + set (s1 := refresh_world (clock s + Z.of_N d1 + Z.of_N d2) s).
      exists s1, (set_clock (clock s1 + Z.of_N d3) s1).
      split; [apply run_update_stale; lia |].
      split; [apply run_update_fresh; simpl; lia |]. by right.
Qed.

Lemma maybeRefresh_within_ttl_witness :
  ((clock fresh_world + Z.of_N 0 - lastUpdateTime (set_last 0 fresh_world)
    ≤ ttl)%Z
   ∧ run (updatePenguinsStatistics 0 0) (set_last 0 fresh_world)
     = Some (tt, set_clock 0 (set_last 0 fresh_world)))
  ∧ ((Z.of_N 5 + Z.of_N 7 ≤ ttl)%Z
     ∧ ∃ s1 s2,
         run (updatePenguinsStatistics 0 5) fresh_world = Some (tt, s1)
         ∧ run (updatePenguinsStatistics 7 0) s1 = Some (tt, s2)
         ∧ (rpcs s2 = rpcs fresh_world
            ∨ rpcs s2 = rpcs fresh_world
                        ++ (RpcGet ∘ Id <$> penguins fresh_world))).
Proof.
  split.
  - split; [vm_compute; discriminate |].
    apply (maybeRefresh_within_ttl (set_last 0 fresh_world) 0 0 0 0).
    vm_compute; discriminate.
  - split; [vm_compute; discriminate |].
    apply (maybeRefresh_within_ttl fresh_world 0 5 7 0).
    vm_compute; discriminate.
Defined.

(** C2: a stale [updatePenguinsStatistics] takes the lock, stores the new
    clock reading in [lastUpdateTime], and only then walks the roster in
    order, fetching each entry's record and overwriting its three counters;
    length, order, ids, names and bios are kept. *)
Theorem maybeRefresh_stale_pass (s : world) (d1 d2 : N) :
  (ttl < clock s + Z.of_N d1 - lastUpdateTime s)%Z →
  let now := (clock s + Z.of_N d1 + Z.of_N d2)%Z in
  ∃ s',
    run (updatePenguinsStatistics d1 d2) s = Some (tt, s')
    ∧ trace (updatePenguinsStatistics d1 d2) s
      = [get_lastUpdateTime; time_Now d1; mutex_Lock; time_Now d2;
         put_lastUpdateTime now; len_penguins]
        ++ refresh_ops (store s) 0 (penguins s) ++ [mutex_Unlock]
    ∧ lastUpdateTime s' = now
    ∧ store s' = store s
    ∧ rpcs s' = rpcs s ++ (RpcGet ∘ Id <$> penguins s)
    ∧ length (penguins s') = length (penguins s)
    ∧ ∀ i p, penguins s !! i = Some p →
        ∃ p', penguins s' !! i = Some p'
          ∧ Id p' = Id p ∧ Name p' = Name p ∧ Bio p' = Bio p
          ∧ VisitCount p' = dbVisitCount (fetched (store s) (Id p))
          ∧ FishCount p' = dbFishCount (fetched (store s) (Id p))
          ∧ BellyrubCount p' = dbBellyrubCount (fetched (store s) (Id p)).
Proof.
  intros Hstale now. eexists. split; [by apply run_update_stale |].
  split; [by apply trace_update_stale |].
  simpl. repeat split; [by rewrite length_fmap |].
  intros i p Hp. eexists. split; [by apply refreshed_lookup |]. done.
Qed.

Lemma maybeRefresh_stale_pass_witness :
  (ttl < clock fresh_world + Z.of_N 3 - lastUpdateTime fresh_world)%Z
  ∧ ∃ s', run (updatePenguinsStatistics 3 4) fresh_world = Some (tt, s')
          ∧ lastUpdateTime s' = 7%Z
          ∧ rpcs s' = [RpcGet "p1"; RpcGet "p2"].
Proof.
  split; [vm_compute; reflexivity |].
  destruct (maybeRefresh_stale_pass fresh_world 3 4) as (s' & Hrun & _ & Hlast & _ & Hrpcs & _);
    [vm_compute; reflexivity |].
  exists s'. split; [exact Hrun |]. split; [exact Hlast | exact Hrpcs].
Defined.

(** ** Forced refresh and the event handlers *)

(** C3: [updateHandler] rewinds [lastUpdateTime] to twenty minutes before its
    clock reading; whatever happens next that leaves the timestamp alone, and
    however little time passes, the next [updatePenguinsStatistics] makes a
    pass over the roster. *)
Theorem forceRefresh_forces_pass (s : world) (d0 : N) :
  let s0 := set_last (GoTime.Add (clock s + Z.of_N d0) (-20 * GoTime.Minute))
                     (set_clock (clock s + Z.of_N d0) s) in
  run (updateHandler d0) s = Some (tt, s0)
  ∧ ∀ (s1 : world) (d1 d2 : N),
      lastUpdateTime s1 = lastUpdateTime s0 → (clock s0 ≤ clock s1)%Z →
      run (updatePenguinsStatistics d1 d2) s1
        = Some (tt, refresh_world (clock s1 + Z.of_N d1 + Z.of_N d2) s1)
      ∧ rpcs (refresh_world (clock s1 + Z.of_N d1 + Z.of_N d2) s1)
        = rpcs s1 ++ (RpcGet ∘ Id <$> penguins s1).
Proof.
  intros s0. split; [apply run_updateHandler |].
  intros s1 d1 d2 Hlast Hclock. split; [| done].
  apply run_update_stale. rewrite Hlast. subst s0. simpl in *.
  unfold GoTime.Add, ttl, GoTime.Minute, GoTime.Second, GoTime.Nanosecond.
  lia.
Qed.

Lemma forceRefresh_forces_pass_witness :
  let s0 := set_last (-1200000000000) (set_clock 0 (set_last 0 fresh_world)) in
  run (updateHandler 0) (set_last 0 fresh_world) = Some (tt, s0)
  ∧ lastUpdateTime s0 = lastUpdateTime s0 ∧ (clock s0 ≤ clock s0)%Z
  ∧ run (updatePenguinsStatistics 0 0) s0 = Some (tt, refresh_world 0 s0).
Proof.
  intros s0.
  destruct (forceRefresh_forces_pass (set_last 0 fresh_world) 0) as [Hrun Hnext].
  split; [exact Hrun |]. split; [reflexivity |].
  split; [vm_compute; discriminate |].
  apply (Hnext s0 0%N 0%N); [reflexivity | vm_compute; discriminate].
Defined.

(** C4 as stated fails at the top of the [int] range: the record put back
    for "p1" has its visit counter wrapped to the bottom of the range, not
    the fetched value plus one. *)
Lemma visit_wraps_at_max_int :
  has_id "p1" (penguins saturated_world) = true
  ∧ dbVisitCount (fetched (store saturated_world) "p1") = (2 ^ 63 - 1)%Z
  ∧ ∃ s' e',
      run (visitHandler "p1" false) saturated_world = Some (tt, s')
      ∧ store s' !! "p1" = Some e'
      ∧ dbVisitCount e' = (- 2 ^ 63)%Z
      ∧ dbVisitCount e'
        ≠ (dbVisitCount (fetched (store saturated_world) "p1") + 1)%Z.
Proof.
  split; [reflexivity |]. split; [reflexivity |].
  eexists _, _. split; [vm_compute; reflexivity |].
  split; [vm_compute; reflexivity |]. split; [reflexivity |].
  vm_compute. discriminate.
Qed.

Lemma counter_bump (c : stat) (e : penguinEntity) :
  counter c (bump c e) = GoInt.wrap (counter c e + 1).
Proof. by destruct c. Qed.

Lemma counter_bump_other (c c2 : stat) (e : penguinEntity) :
  c2 ≠ c → counter c2 (bump c e) = counter c2 e.
Proof. by destruct c, c2. Qed.

Lemma dbId_bump (c : stat) (e : penguinEntity) : dbId (bump c e) = dbId e.
Proof. by destruct c. Qed.

Lemma run_visitHandler (id : string) (failed : bool) (s : world) :
  run (visitHandler id failed) s =
  Some (tt, if has_id id (penguins s) then after_event Visit id failed s
            else s).
Proof. exact (run_statHandler Visit id failed s). Qed.

Lemma penguins_after_event (c : stat) (id : string) (failed : bool)
    (s : world) :
  penguins (after_event c id failed s) = penguins s.
Proof. unfold after_event. by destruct failed. Qed.

Lemma store_after_event (c : stat) (id : string) (s : world) :
  store (after_event c id false s)
  = <[id := bump c (fetched (store s) id)]> (store s).
Proof. done. Qed.

Lemma fetched_insert (db : gmap string penguinEntity) (id : string)
    (e : penguinEntity) :
  fetched (<[id := e]> db) id = e.
Proof. unfold fetched. by rewrite lookup_insert_eq. Qed.

Lemma fetched_None (db : gmap string penguinEntity) (id : string) :
  db !! id = None → fetched db id = mkEntity id 0 0 0.
Proof. unfold fetched. by intros ->. Qed.

(** Three visits in a row for an id of the roster that has no record. *)
Lemma three_visits (id : string) (s : world) :
  has_id id (penguins s) = true → store s !! id = None →
  ∃ s3,
    run (visitHandler id false;; visitHandler id false;;
         visitHandler id false) s = Some (tt, s3)
    ∧ store s3 !! id = Some (mkEntity id 3 0 0).
Proof.
  intros Hin Hnone. unfold mbind, prog_bind.
  rewrite run_bind, run_visitHandler, Hin.
  rewrite run_bind, run_visitHandler, penguins_after_event, Hin.
  rewrite run_visitHandler, !penguins_after_event, Hin.
  eexists. split; [done |].
  rewrite !store_after_event, lookup_insert_eq, !fetched_insert.
  by rewrite (fetched_None _ _ Hnone).
Qed.

(** C4, amended: for an id of the roster each stat handler gets the record
    and puts it back under the same id with the targeted counter
    incremented in [int] arithmetic (plus one below the top of the range,
    wrapped at the top) and the other fields as fetched; a put that succeeds
    leaves that record in the datastore.  Three visits in a row for an id
    without a record leave its visit counter at 3. *)
Theorem statHandler_increments (s : world) (c : stat) (id : string)
    (failed : bool) :
  has_id id (penguins s) = true →
  let e := fetched (store s) id in
  let e' := bump c e in
  (∃ s',
     run (statHandler c id failed) s = Some (tt, s')
     ∧ rpcs s' = rpcs s ++ [RpcGet id; RpcPut id e' failed]
     ∧ (failed = false → store s' = <[id := e']> (store s)))
  ∧ counter c e' = GoInt.wrap (counter c e + 1)
  ∧ GoInt.in_range (counter c e')
  ∧ (GoInt.in_range (counter c e) → (counter c e < GoInt.max_int)%Z →
     counter c e' = (counter c e + 1)%Z)
  ∧ dbId e' = dbId e
  ∧ (∀ c2, c2 ≠ c → counter c2 e' = counter c2 e)
  ∧ (store s !! id = None →
     ∃ s3,
       run (visitHandler id false;; visitHandler id false;;
            visitHandler id false) s = Some (tt, s3)
       ∧ dbVisitCount <$> store s3 !! id = Some 3%Z).
Proof.
  intros Hin e e'. split.
  { eexists. rewrite run_statHandler, Hin. split; [done |].
    unfold after_event. fold e e'. destruct failed; simpl.
    - split; [by rewrite <- app_assoc | done].
    - split; [by rewrite <- app_assoc | done]. }
  split; [apply counter_bump |].
  split; [subst e'; rewrite counter_bump; apply GoInt_wrap_range |].
  split.
  { intros Hr Hlt. subst e'. rewrite counter_bump. apply GoInt_wrap_id.
    unfold GoInt.in_range, GoInt.min_int, GoInt.max_int, GoInt.bits in *.
    change (2 ^ (64 - 1))%Z with (2 ^ 63)%Z in *. lia. }
  split; [apply dbId_bump |].
  split; [intros c2; apply counter_bump_other |].
  intros Hnone. destruct (three_visits id s Hin Hnone) as (s3 & Hrun & Hget).
  exists s3. split; [done |]. by rewrite Hget.
Qed.

Lemma statHandler_increments_witness :
  has_id "p1" (penguins fresh_world) = true
  ∧ (∃ s', run (visitHandler "p1" false) fresh_world = Some (tt, s')
           ∧ store s' = {[ "p1" := mkEntity "p1" 1 0 0 ]})
  ∧ ∃ s3,
      run (visitHandler "p1" false;; visitHandler "p1" false;;
           visitHandler "p1" false) fresh_world = Some (tt, s3)
      ∧ dbVisitCount <$> store s3 !! "p1" = Some 3%Z.
Proof.
  split; [reflexivity |].
  destruct (statHandler_increments fresh_world Visit "p1" false eq_refl)
    as ((s' & Hrun & _ & Hstore) & _ & _ & _ & _ & _ & Hthree).
  split.
  - exists s'. split; [exact Hrun |]. exact (Hstore eq_refl).
  - exact (Hthree eq_refl).
Defined.

(** ** Unknown ids, the gateway and failed puts *)

Lemma run_update (d1 d2 : N) (s : world) :
  run (updatePenguinsStatistics d1 d2) s =
  Some (tt, if bool_decide (clock s + Z.of_N d1 - lastUpdateTime s ≤ ttl)%Z
            then set_clock (clock s + Z.of_N d1) s
            else refresh_world (clock s + Z.of_N d1 + Z.of_N d2) s).
Proof.
  case_bool_decide; [by apply run_update_fresh |].
  apply run_update_stale. lia.
Qed.

Lemma run_penguinsHandler (d1 d2 : N) (s : world) :
  run (penguinsHandler d1 d2) s =
  match run (updatePenguinsStatistics d1 d2) s with
  | Some (_, s1) => Some (tt, add_body (Json (penguins s1)) s1)
  | None => None
  end.
Proof.
  unfold penguinsHandler, mbind, prog_bind. rewrite run_bind.
  by destruct (run (updatePenguinsStatistics d1 d2) s) as [[[] s1] |].
Qed.

(** C5: an id that no roster entry carries is reported absent, and each stat
    handler called with it returns leaving the whole world as it was: no
    datastore call, no log line, nothing written to the response. *)
Theorem unknown_id_ignored (s : world) (id : string) :
  (∀ p, p ∈ penguins s → Id p ≠ id) →
  run (penguinExists id) s = Some (false, s)
  ∧ ∀ (c : stat) (failed : bool),
      run (statHandler c id failed) s = Some (tt, s)
      ∧ Forall (fun o => ∀ f k e, o ≠ datastore_Put f k e)
               (trace (statHandler c id failed) s).
Proof.
  intros Hno. apply has_id_false in Hno.
  split; [by rewrite run_penguinExists, Hno |].
  intros c failed. split; [by rewrite run_statHandler, Hno |].
  assert (Hex : trace (penguinExists id) s =
                mutex_RLock :: len_penguins :: trace (exists_from id 0
                  (length (penguins s))) s ++ [mutex_RUnlock]).
  { unfold penguinExists. prog_simpl. do 2 f_equal. rewrite trace_bind.
    by rewrite (run_exists_from id [] (penguins s)). }
  assert (Hloop : ∀ pre rest, penguins s = pre ++ rest →
            Forall (fun o => ∀ f k e, o ≠ datastore_Put f k e)
                   (trace (exists_from id (length pre) (length rest)) s)).
  { intros pre rest. revert pre.
    induction rest as [| p rest IH]; intros pre Hs; [constructor |].
    prog_simpl. rewrite Hs, list_lookup_middle by done. simpl.
    constructor; [done |]. case_bool_decide; [constructor |].
    specialize (IH (pre ++ [p])). rewrite length_app, Nat.add_1_r in IH.
    apply IH. by rewrite <- app_assoc. }
  assert (Htr : trace (statHandler c id failed) s = trace (penguinExists id) s).
  { destruct c; unfold statHandler;
      [unfold visitHandler | unfold fishHandler | unfold bellyrubHandler];
      unfold mbind, prog_bind; rewrite trace_bind, run_penguinExists, Hno;
      apply app_nil_r. }
  rewrite Htr, Hex. repeat (constructor; [done |]).
  apply Forall_app. split; [by apply (Hloop []) |].
  by repeat constructor.
Qed.

Lemma unknown_id_ignored_witness :
  (∀ p, p ∈ penguins fresh_world → Id p ≠ "unknown")
  ∧ run (penguinExists "unknown") fresh_world = Some (false, fresh_world)
  ∧ run (visitHandler "unknown" false) fresh_world = Some (tt, fresh_world).
Proof.
  assert (Hno : ∀ p, p ∈ penguins fresh_world → Id p ≠ "unknown").
  { intros p Hin. simpl in Hin.
    apply elem_of_cons in Hin as [-> | Hin]; [discriminate |].
    apply elem_of_cons in Hin as [-> | Hin]; [discriminate |].
    by apply elem_of_nil in Hin. }
  split; [exact Hno |].
  destruct (unknown_id_ignored fresh_world "unknown" Hno) as [Hex Hst].
  split; [exact Hex |]. exact (proj1 (Hst Visit false)).
Defined.

(** C6: [dbGetPenguin] always returns: the stored record when the datastore
    has one under the id, and otherwise the record with the three counters
    at zero and [Id] set to the requested id. *)
Theorem dbGetPenguin_get_or_default (s : world) (id : string) :
  ∃ e,
    run (dbGetPenguin id) s = Some (e, add_rpc (RpcGet id) s)
    ∧ (∀ r, store s !! id = Some r → e = r)
    ∧ (store s !! id = None → e = mkEntity id 0 0 0).
Proof.
  exists (fetched (store s) id). split; [apply run_dbGetPenguin |].
  unfold fetched. split.
  - by intros r ->.
  - by intros ->.
Qed.

Lemma dbGetPenguin_get_or_default_witness :
  store fresh_world !! "p1" = None
  ∧ run (dbGetPenguin "p1") fresh_world
    = Some (mkEntity "p1" 0 0 0, add_rpc (RpcGet "p1") fresh_world).
Proof.
  split; [reflexivity |].
  destruct (dbGetPenguin_get_or_default fresh_world "p1")
    as (e & Hrun & _ & Hnone).
  rewrite Hrun. by rewrite (Hnone eq_refl).
Defined.



(** ** The datastore invariant in serial histories *)

Lemma fetched_dbId (db : gmap string penguinEntity) (id : string) :
  store_keyed db → dbId (fetched db id) = id.
Proof.
  intros Hk. unfold fetched. destruct (db !! id) as [e |] eqn:He; [| done].
  by apply Hk.
Qed.

Lemma store_keyed_insert (db : gmap string penguinEntity) (c : stat)
    (id : string) :
  store_keyed db → store_keyed (<[id := bump c (fetched db id)]> db).
Proof.
  intros Hk k e. destruct (decide (id = k)) as [-> | Hne].
  - rewrite lookup_insert_eq. intros [= <-].
    by rewrite dbId_bump, fetched_dbId.
  - rewrite lookup_insert_ne by done. apply Hk.
Qed.

(** What a request can do to the datastore. *)
Lemma run_serve_store (r : request) (s s' : world) :
  run (serve r) s = Some (tt, s') →
  store s' = store s
  ∨ ∃ c id, store s' = <[id := bump c (fetched (store s) id)]> (store s).
Proof.
  destruct r as [| d1 d2 | d | c id failed]; simpl serve.
  - intros [= <-]. by left.
  - rewrite run_penguinsHandler, run_update. intros [= <-]. left.
    by case_bool_decide.
  - rewrite run_updateHandler. intros [= <-]. by left.
  - rewrite run_statHandler. intros [= <-].
    destruct (has_id id (penguins s)); [| by left].
    unfold after_event. destruct failed; [by left |].
    right. by exists c, id.
Qed.

Lemma reachable_store_keyed (s : world) : reachable s → store_keyed (store s).
Proof.
  induction 1 as [ps now | s ps now _ IH | s s' r _ IH Hrun].
  - intros k e. simpl. by rewrite lookup_empty.
  - exact IH.
  - destruct (run_serve_store r s s' Hrun) as [-> | (c & id & ->)];
      [done | by apply store_keyed_insert].
Qed.


(** ** The locking discipline *)

Lemma locks_mono {A} (p : prog A) (h : held) (Q Q' : A → held → Prop) :
  (∀ a h', Q a h' → Q' a h') → locks p h Q → locks p h Q'.
Proof.
  intros HQ. revert h. induction p as [a | o k IH]; intros h; simpl.
  - apply HQ.
  - intros [Ha Hk]. split; [done |]. intros x. by apply IH.
Qed.

Lemma locks_bind {A B} (p : prog A) (f : A → prog B) (h : held)
    (Q : B → held → Prop) :
  locks p h (fun a h' => locks (f a) h' Q) → locks (bind p f) h Q.
Proof.
  revert h. induction p as [a | o k IH]; intros h; simpl; [done |].
  intros [Ha Hk]. split; [done |]. intros x. by apply IH.
Qed.

Lemma locks_exists_from (id : string) (i todo : nat) (h : held) :
  h ≠ NoLock → locks (exists_from id i todo) h (fun _ h' => h' = h).
Proof.
  intros Hh. revert i. induction todo as [| todo IH]; intros i; [done |].
  prog_simpl. split; [done |]. intros p.
  case_bool_decide; [done | apply IH].
Qed.

Lemma locks_refresh_from (i todo : nat) :
  locks (refresh_from i todo) WriteLock (fun _ h' => h' = WriteLock).
Proof.
  revert i. induction todo as [| todo IH]; intros i; [done |].
  prog_simpl. split; [done |]. intros p. split; [done |].
  intros [e |]; prog_simpl; (do 3 (split; [done |]; intros _)); apply IH.
Qed.

Lemma locks_update (d1 d2 : N) :
  locks (updatePenguinsStatistics d1 d2) NoLock (fun _ h' => h' = NoLock).
Proof.
  unfold updatePenguinsStatistics. prog_simpl.
  split; [done |]. intros t. split; [done |]. intros now.
  case_bool_decide; [done |]. prog_simpl.
  split; [done |]. intros _. split; [done |]. intros now2.
  split; [done |]. intros _. split; [done |]. intros n.
  apply locks_bind.
  eapply locks_mono; [| apply locks_refresh_from].
  intros _ h' ->. by simpl.
Qed.

Lemma locks_penguinExists (id : string) :
  locks (penguinExists id) NoLock (fun _ h' => h' = NoLock).
Proof.
  unfold penguinExists. prog_simpl.
  split; [done |]. intros _. split; [done |]. intros n.
  apply locks_bind.
  eapply locks_mono; [| by apply (locks_exists_from id 0 n ReadLock)].
  intros b h' ->. by simpl.
Qed.

Lemma locks_statHandler (c : stat) (id : string) (failed : bool) :
  locks (statHandler c id failed) NoLock (fun _ h' => h' = NoLock).
Proof.
  destruct c; unfold statHandler;
    [unfold visitHandler | unfold fishHandler | unfold bellyrubHandler];
    unfold mbind at 1, prog_bind; apply locks_bind;
    (eapply locks_mono; [| apply locks_penguinExists]);
    intros [] h' ->; [| done | | done | | done];
    prog_simpl; (split; [done |]); intros [e |]; prog_simpl;
    (split; [done |]); intros []; by simpl.
Qed.

Lemma locks_serve (r : request) :
  locks (serve r) NoLock (fun _ h' => h' = NoLock).
Proof.
  destruct r as [| d1 d2 | d | c id failed]; simpl serve.
  - by simpl.
  - unfold penguinsHandler. unfold mbind at 1, prog_bind.
    apply locks_bind.
    eapply locks_mono; [| apply locks_update].
    intros _ h' ->. prog_simpl. split; [done |]. intros _.
    split; [done |]. intros ps. by simpl.
  - by simpl.
  - apply locks_statHandler.
Qed.

(** ** The invariant of the interleaved server *)

Lemma sum_list_with_insert {A} (f : A → nat) (l : list A) (i : nat) (x y : A) :
  l !! i = Some x →
  sum_list_with f (<[i := y]> l) + f x = sum_list_with f l + f y.
Proof.
  revert i. induction l as [| a l IH]; intros [| i] Hi; simplify_eq/=.
  - lia.
  - specialize (IH i Hi). lia.
Qed.

Lemma sum_list_with_lookup {A} (f : A → nat) (l : list A) (i : nat) (x : A) :
  l !! i = Some x → f x ≤ sum_list_with f l.
Proof.
  revert i. induction l as [| a l IH]; intros [| i] Hi; simplify_eq/=.
  - lia.
  - specialize (IH i Hi). lia.
Qed.

Lemma sum_list_with_lookup2 {A} (f : A → nat) (l : list A) (i j : nat)
    (x y : A) :
  i ≠ j → l !! i = Some x → l !! j = Some y →
  f x + f y ≤ sum_list_with f l.
Proof.
  revert i j. induction l as [| a l IH]; intros [| i] [| j] Hne Hi Hj;
    simplify_eq/=.
  - pose proof (sum_list_with_lookup f l j y Hj). lia.
  - pose proof (sum_list_with_lookup f l i x Hi). lia.
  - assert (i ≠ j) by congruence. specialize (IH i j H Hi Hj). lia.
Qed.

Lemma lock_inv_init (ps : list penguin) (now : Z)
    (db : gmap string penguinEntity) :
  lock_inv (init_world ps now db, mkMutex false 0, []).
Proof. simpl. by repeat split. Qed.

Lemma lock_inv_step (c c' : config) : lock_inv c → cstep c c' → lock_inv c'.
Proof.
  intros Hinv Hstep.
  destruct Hstep as [w m ts r | w w' m ts i o k h x Hi Hen Hsem].
  - destruct Hinv as (Hd & Hr & Hw & Hx). simpl.
    rewrite Forall_app, !sum_list_with_app.
    change (sum_list_with reading [(serve r, NoLock)]) with 0.
    change (sum_list_with writing [(serve r, NoLock)]) with 0.
    split; [| split; [| split]]; [| lia | lia | done].
    split; [done |]. constructor; [apply locks_serve | constructor].
  - destruct Hinv as (Hd & Hr & Hw & Hx).
    pose proof (Forall_lookup_1 _ _ _ _ Hd Hi) as [Hal Hk].
    assert (Hr' : sum_list_with reading (<[i := (k x, held_after o h)]> ts)
                  + match h with ReadLock => 1 | _ => 0 end
                  = sum_list_with reading ts
                    + match held_after o h with ReadLock => 1 | _ => 0 end)
      by exact (sum_list_with_insert reading ts i _ (k x, _) Hi).
    assert (Hw' : sum_list_with writing (<[i := (k x, held_after o h)]> ts)
                  + match h with WriteLock => 1 | _ => 0 end
                  = sum_list_with writing ts
                    + match held_after o h with WriteLock => 1 | _ => 0 end)
      by exact (sum_list_with_insert writing ts i _ (k x, _) Hi).
    simpl in Hal, Hk.
    assert (Hd' : Forall disciplined (<[i := (k x, held_after o h)]> ts)).
    { apply Forall_insert; [done | apply Hk]. }
    destruct m as [wr rd]. simpl in *.
    destruct o; simpl in *; subst;
      try (split; [| split; [| split]];
           [done | try destruct h; lia | try destruct h; lia | done]).
    + (* mutex_Lock *)
      apply andb_true_iff in Hen as [Hnw Hz%bool_decide_eq_true].
      apply negb_true_iff in Hnw. subst.
      split; [| split; [| split]]; [done | lia | lia | by intros _].
    + (* mutex_RLock *)
      apply negb_true_iff in Hen. subst.
      split; [| split; [| split]]; [done | lia | lia | intros [=]].
    + (* mutex_RUnlock *)
      apply bool_decide_eq_true in Hen.
      split; [| split; [| split]]; [done | lia | lia |].
      intros ->. specialize (Hx eq_refl). lia.
Qed.

Lemma creachable_lock_inv (c : config) : creachable c → lock_inv c.
Proof.
  induction 1 as [ps now db | c c' _ IH Hstep].
  - apply lock_inv_init.
  - by apply (lock_inv_step c c').
Qed.

(** Only the three counter assignments change [penguins]. *)
Lemma op_sem_roster (o : op) (w w' : world) (x : res o) :
  op_sem o w = Some (x, w') → writes_roster o = false →
  penguins w' = penguins w.
Proof.
  destruct o; simpl; try discriminate; intros Hsem _;
    try (by simplify_eq/=).
  - destruct (penguins w !! i); by simplify_eq/=.
  - by destruct failed; simplify_eq/=.
Qed.

(** ** Where the lock is held *)

Lemma annotate_refresh_ops (db : gmap string penguinEntity) (i : nat)
    (ps : list penguin) (h : held) (tl : list op) :
  annotate h (refresh_ops db i ps ++ tl) =
  ((fun o => (o, h)) <$> refresh_ops db i ps) ++ annotate h tl.
Proof.
  revert i. induction ps as [| p ps IH]; intros i; simpl; [done |].
  by rewrite IH.
Qed.

(** The refresher of the [sync.RWMutex] revision, primitive by primitive. *)
Lemma annotate_update_stale (d1 d2 : N) (s : world) :
  (ttl < clock s + Z.of_N d1 - lastUpdateTime s)%Z →
  annotate NoLock (trace (updatePenguinsStatistics d1 d2) s) =
  [(get_lastUpdateTime, NoLock); (time_Now d1, NoLock); (mutex_Lock, NoLock)]
  ++ ((fun o => (o, WriteLock)) <$>
        [time_Now d2;
         put_lastUpdateTime (clock s + Z.of_N d1 + Z.of_N d2); len_penguins]
        ++ refresh_ops (store s) 0 (penguins s) ++ [mutex_Unlock]).
Proof.
  intros Hstale. rewrite trace_update_stale by done. simpl.
  rewrite annotate_refresh_ops, fmap_app. done.
Qed.

(** C8 as stated fails on the [sync.RWMutex] revision: the staleness check
    reads [lastUpdateTime] before the lock is taken. *)
Lemma staleness_check_outside_lock :
  (ttl < clock fresh_world + Z.of_N 0 - lastUpdateTime fresh_world)%Z
  ∧ annotate NoLock (trace (updatePenguinsStatistics 0 0) fresh_world) !! 0
    = Some (get_lastUpdateTime, NoLock)
  ∧ ¬ Forall (fun oh : op * held =>
                refresh_access oh.1 = true → oh.2 = WriteLock)
             (annotate NoLock
                (trace (updatePenguinsStatistics 0 0) fresh_world)).
Proof.
  split; [vm_compute; reflexivity |]. split; [reflexivity |].
  intros Hall.
  pose proof (Forall_lookup_1 _ _ 0 (get_lastUpdateTime, NoLock) Hall
                eq_refl eq_refl) as Hbad.
  discriminate Hbad.
Qed.

Lemma exclusion (c : config) :
  lock_inv c →
  let '(_, _, ts) := c in
  ∀ i j ti tj, i ≠ j → ts !! i = Some ti → ts !! j = Some tj →
    ti.2 = WriteLock → tj.2 = NoLock.
Proof.
  destruct c as [[w m] ts]. intros (Hd & Hr & Hw & Hx) i j ti tj Hne Hi Hj Hti.
  pose proof (sum_list_with_lookup2 writing ts i j ti tj Hne Hi Hj) as H2.
  pose proof (sum_list_with_lookup reading ts j tj Hj) as H1.
  unfold writing, reading in H1, H2. rewrite Hti in H2.
  fold writing in H2. fold reading in H1.
  rewrite Hw in H2. rewrite Hr in H1.
  destruct (writer m); [| destruct (tj.2); lia].
  rewrite Hx in H1 by done. destruct (tj.2); [done | lia | lia].
Qed.

Lemma next_allowed (c : config) :
  lock_inv c →
  let '(_, _, ts) := c in
  ∀ i o k h, ts !! i = Some (Vis o k, h) →
    (writes_roster o = true → h = WriteLock)
    ∧ (reads_roster o = true → h ≠ NoLock).
Proof.
  destruct c as [[w m] ts]. intros (Hd & _) i o k h Hi.
  pose proof (Forall_lookup_1 _ _ _ _ Hd Hi) as [Hal _]. simpl in Hal.
  by destruct o.
Qed.

Lemma step_at_sound (i : nat) (c c' : config) :
  step_at i c = Some c' → cstep c c'.
Proof.
  destruct c as [[w m] ts]. unfold step_at.
  destruct (ts !! i) as [[[a | o k] h] |] eqn:Hi; try discriminate.
  destruct (mutex_enabled o m) eqn:Hen; try discriminate.
  destruct (op_sem o w) as [[x w'] |] eqn:Hsem; try discriminate.
  intros [= <-]. by apply (cstep_run w w' m ts i o k h x).
Qed.

Lemma schedule_creachable (sched : list nat) (c c' : config) :
  creachable c → schedule sched c = Some c' → creachable c'.
Proof.
  revert c. induction sched as [| i sched IH]; intros c Hc; simpl.
  - by intros [= <-].
  - destruct (step_at i c) as [c1 |] eqn:Hstep; [| discriminate].
    apply IH. apply (creach_step c); [done | by apply (step_at_sound i)].
Qed.

Lemma schedule_default_creachable (sched : list nat) (c : config) :
  creachable c → creachable (default c (schedule sched c)).
Proof.
  intros Hc. destruct (schedule sched c) as [c' |] eqn:Hs; [| done].
  by apply (schedule_creachable sched c).
Qed.

(** C8, amended: in the [sync.RWMutex] revision the staleness check runs
    before the lock is taken; from the update of [lastUpdateTime] to the last
    counter assignment the refresher holds the write lock.  In every
    interleaving of handlers, counters are assigned only by a goroutine that
    holds the write lock, roster entries are read only by a goroutine that
    holds the lock in some mode, the roster changes only in a step of a
    goroutine that holds the write lock, and while one goroutine holds the
    write lock no other holds the lock: no reader sees a roster in the middle
    of a pass. *)
Theorem refresh_pass_under_write_lock (c : config) (s : world) (d1 d2 : N) :
  creachable c →
  (ttl < clock s + Z.of_N d1 - lastUpdateTime s)%Z →
  annotate NoLock (trace (updatePenguinsStatistics d1 d2) s)
  = [(get_lastUpdateTime, NoLock); (time_Now d1, NoLock);
     (mutex_Lock, NoLock)]
    ++ ((fun o => (o, WriteLock)) <$>
          [time_Now d2;
           put_lastUpdateTime (clock s + Z.of_N d1 + Z.of_N d2);
           len_penguins]
          ++ refresh_ops (store s) 0 (penguins s) ++ [mutex_Unlock])
  ∧ (∀ i o k h, c.2 !! i = Some (Vis o k, h) →
       (writes_roster o = true → h = WriteLock)
       ∧ (reads_roster o = true → h ≠ NoLock))
  ∧ (∀ i j ti tj, i ≠ j → c.2 !! i = Some ti → c.2 !! j = Some tj →
       ti.2 = WriteLock → tj.2 = NoLock)
  ∧ (∀ i j o k h tj, i ≠ j → c.2 !! i = Some (Vis o k, h) →
       reads_roster o = true → c.2 !! j = Some tj → tj.2 ≠ WriteLock)
  ∧ (∀ c', cstep c c' → penguins c'.1.1 ≠ penguins c.1.1 →
       ∃ i o k, c.2 !! i = Some (Vis o k, WriteLock)
                ∧ writes_roster o = true).
Proof.
  intros Hreach Hstale. apply creachable_lock_inv in Hreach.
  split; [by apply annotate_update_stale |].
  pose proof (next_allowed c Hreach) as Hnext.
  pose proof (exclusion c Hreach) as Hexcl.
  destruct c as [[w m] ts]. simpl.
  split; [exact Hnext |]. split; [exact Hexcl |]. split.
  - intros i j o k h tj Hne Hi Hread Hj Htj.
    destruct (Hnext i o k h Hi) as [_ Hh]. apply Hh; [done |].
    by apply (Hexcl j i tj (Vis o k, h)).
  - intros c' Hstep Hchg.
    inversion Hstep as [| w0 w' m0 ts0 i o k h x Hi Hen Hsem]; subst;
      [done |]. simpl in Hchg.
    destruct (writes_roster o) eqn:Hw.
    + exists i, o, k. destruct (Hnext i o k h Hi) as [Hh _].
      by rewrite <- (Hh Hw).
    + by rewrite (op_sem_roster o w w' x Hsem Hw) in Hchg.
Qed.

Lemma refresh_pass_under_write_lock_witness :
  creachable mid_pass
  ∧ (ttl < clock stocked_world + Z.of_N 0 - lastUpdateTime stocked_world)%Z
  ∧ annotate NoLock (trace (updatePenguinsStatistics 0 0) stocked_world) !! 4
    = Some (put_lastUpdateTime 0, WriteLock)
  ∧ (snd <$> mid_pass.2) = [WriteLock; NoLock]
  ∧ penguins mid_pass.1.1 = [mkPenguin "p1" "Pingu" "" 5 0 0; pinga]
  ∧ schedule [1] mid_pass = None
  ∧ ∀ i o k h, mid_pass.2 !! i = Some (Vis o k, h) →
      (writes_roster o = true → h = WriteLock)
      ∧ (reads_roster o = true → h ≠ NoLock).
Proof.
  assert (Harr : creachable two_requests).
  { apply (creach_step (stocked_world, mkMutex false 0,
                        [(serve (GetPenguins 0 0), NoLock)])).
    - apply (creach_step (stocked_world, mkMutex false 0, [])).
      + apply creach_init.
      + apply (cstep_arrive stocked_world (mkMutex false 0) []
                 (GetPenguins 0 0)).
    - apply (cstep_arrive stocked_world (mkMutex false 0)
               [(serve (GetPenguins 0 0), NoLock)]
               (GetStat Visit "p1" false)). }
  assert (Hreach : creachable mid_pass)
    by exact (schedule_default_creachable _ _ Harr).
  assert (Hstale : (ttl < clock stocked_world + Z.of_N 0
                          - lastUpdateTime stocked_world)%Z)
    by (vm_compute; reflexivity).
  destruct (refresh_pass_under_write_lock mid_pass stocked_world 0 0
              Hreach Hstale) as (Htrace & Hnext & _).
  split; [exact Hreach |]. split; [exact Hstale |].
  split; [rewrite Htrace; reflexivity |].
  split; [vm_compute; reflexivity |].
  split; [vm_compute; reflexivity |].
  split; [vm_compute; reflexivity | exact Hnext].
Defined.

(** In the [sync.Mutex] revision the check runs with the mutex held: the
    handler locks before it calls the refresher. *)
Lemma AppV1_check_under_lock (d1 d2 : N) (s : world) :
  ∃ tl, annotate NoLock (trace (AppV1.penguinsHandler d1 d2) s)
        = (mutex_Lock, NoLock) :: (get_lastUpdateTime, WriteLock)
          :: (time_Now d1, WriteLock) :: tl.
Proof. unfold AppV1.penguinsHandler. prog_simpl. by eexists. Qed.

(** In the [sync.Mutex] revision a failed put leaves no trace in the log. *)
Lemma AppV1_put_failure_silent (id : string) (s : world) :
  has_id id (penguins s) = true →
  ∃ s', run (AppV1.visitHandler id true) s = Some (tt, s')
        ∧ errlog s' = errlog s.
Proof.
  intros Hin.
  assert (Hex : run (AppV1.penguinExists id) s = Some (true, s)).
  { unfold AppV1.penguinExists. prog_simpl.
    by rewrite (run_exists_from id [] (penguins s)), Hin. }
  unfold AppV1.visitHandler, mbind, prog_bind.
  rewrite run_bind, Hex, run_bind, run_dbGetPenguin. by eexists.
Qed.

(** ** The two revisions compared *)

(** The two revisions compute the same in a serial run, except that the
    earlier one does not log a failed put. *)
Lemma AppV1_run_update (d1 d2 : N) (s : world) :
  run (AppV1.updatePenguinsStatistics d1 d2) s
  = run (updatePenguinsStatistics d1 d2) s.
Proof.
  unfold AppV1.updatePenguinsStatistics, updatePenguinsStatistics.
  prog_simpl. case_bool_decide; [done |]. prog_simpl.
  rewrite !run_bind. by destruct (run (refresh_from 0 _) _) as [[[] s'] |].
Qed.

Lemma AppV1_run_penguinExists (id : string) (s : world) :
  run (AppV1.penguinExists id) s = run (penguinExists id) s.
Proof.
  rewrite run_penguinExists. unfold AppV1.penguinExists. prog_simpl.
  by rewrite (run_exists_from id [] (penguins s)).
Qed.

Lemma AppV1_run_statHandler (c : stat) (id : string) (failed : bool)
    (s : world) :
  run (AppV1.statHandler c id failed) s =
  Some (tt, if has_id id (penguins s)
            then if failed
                 then add_rpc (RpcPut id (bump c (fetched (store s) id)) true)
                              (add_rpc (RpcGet id) s)
                 else after_event c id false s
            else s).
Proof.
  destruct c; unfold AppV1.statHandler;
    [unfold AppV1.visitHandler | unfold AppV1.fishHandler
     | unfold AppV1.bellyrubHandler];
    unfold mbind, prog_bind;
    rewrite run_bind, AppV1_run_penguinExists, run_penguinExists;
    (destruct (has_id id (penguins s)); [| done]);
    rewrite run_bind, run_dbGetPenguin; unfold after_event;
    destruct failed; done.
Qed.

(** ** Serial runs never wait for the mutex *)

Lemma mutex_of_step (o : op) (h : held) :
  allowed h o →
  mutex_enabled o (mutex_of h) = true
  ∧ mutex_after o (mutex_of h) = mutex_of (held_after o h).
Proof. destruct o, h; simpl; intros Hal; try done. Qed.

(** A handler that respects the locking discipline, run on its own from the
    mutex state of what it holds, finds the mutex available at every lock
    operation and leaves it in the state of what it holds at the end. *)
Lemma serial_never_blocks {A} (p : prog A) (h : held)
    (Q : A → held → Prop) (s : world) :
  locks p h Q →
  ∃ m', mutex_run (trace p s) (mutex_of h) = Some m'
        ∧ ∀ a s', run p s = Some (a, s') →
            ∃ h', m' = mutex_of h' ∧ Q a h'.
Proof.
  revert h s. induction p as [a | o k IH]; intros h s; simpl.
  - intros HQ. eexists. split; [done |]. intros a' s' [= <- <-]. by exists h.
  - intros [Hal Hk]. destruct (mutex_of_step o h Hal) as [-> ->].
    destruct (op_sem o s) as [[x s1] |]; [by apply IH |].
    eexists. split; [done |]. discriminate.
Qed.

(** Every handler returns: no request makes the server panic. *)
Lemma serve_total (r : request) (s : world) :
  ∃ s', run (serve r) s = Some (tt, s').
Proof.
  destruct r as [| d1 d2 | d | c id failed]; simpl serve.
  - by eexists.
  - rewrite run_penguinsHandler, run_update. by eexists.
  - rewrite run_updateHandler. by eexists.
  - rewrite run_statHandler. by eexists.
Qed.

(** Served on its own, a request finds the mutex available whenever it
    locks, and leaves it free. *)
Lemma serve_never_blocks (r : request) (s : world) :
  mutex_run (trace (serve r) s) (mkMutex false 0) = Some (mkMutex false 0).
Proof.
  destruct (serial_never_blocks (serve r) NoLock _ s (locks_serve r))
    as (m' & Hm & Hend).
  destruct (serve_total r s) as [s' Hrun].
  destruct (Hend tt s' Hrun) as (h' & -> & ->). exact Hm.
Qed.

(** ** The stat handlers never assign to the roster *)

Lemma never_bind {A B} (P : op → bool) (p : prog A) (f : A → prog B) :
  never P p → (∀ a, never P (f a)) → never P (bind p f).
Proof.
  intros Hp Hf. induction p as [a | o k IH]; simpl; [apply Hf |].
  destruct Hp as [Ho Hk]. split; [done |]. intros x. by apply IH.
Qed.

Lemma never_exists_from (P : op → bool) (id : string) (i todo : nat) :
  (∀ j, P (penguins_at j) = false) → never P (exists_from id i todo).
Proof.
  intros HP. revert i. induction todo as [| todo IH]; intros i; [done |].
  prog_simpl. split; [apply HP |]. intros p.
  case_bool_decide; [done | apply IH].
Qed.

Lemma never_statHandler (c : stat) (id : string) (failed : bool) :
  never writes_cache (statHandler c id failed).
Proof.
  assert (Hex : never writes_cache (penguinExists id)).
  { unfold penguinExists. prog_simpl.
    split; [done |]. intros _. split; [done |]. intros n.
    apply never_bind; [by apply never_exists_from | done]. }
  destruct c; unfold statHandler;
    [unfold visitHandler | unfold fishHandler | unfold bellyrubHandler];
    unfold mbind at 1, prog_bind; (apply never_bind; [exact Hex |]);
    intros []; [| done | | done | | done];
    prog_simpl; (split; [done |]); intros [e |]; prog_simpl;
    (split; [done |]); intros []; done.
Qed.

(** ** The datastore discipline under interleaving *)

Lemma keyed_bind {A B} (p : prog A) (f : A → prog B) :
  keyed p → (∀ a, keyed (f a)) → keyed (bind p f).
Proof.
  intros Hp Hf. induction p as [a | o k IH]; simpl; [apply Hf |].
  destruct Hp as [Ho Hk]. split; [done |]. intros x Hx. by apply IH, Hk.
Qed.

Lemma keyed_exists_from (id : string) (i todo : nat) :
  keyed (exists_from id i todo).
Proof.
  revert i. induction todo as [| todo IH]; intros i; [done |].
  prog_simpl. split; [done |]. intros p _.
  case_bool_decide; [done | apply IH].
Qed.

Lemma keyed_refresh_from (i todo : nat) : keyed (refresh_from i todo).
Proof.
  revert i. induction todo as [| todo IH]; intros i; [done |].
  prog_simpl. split; [done |]. intros p _. split; [done |].
  intros [e |] _; prog_simpl; (do 3 (split; [done |]; intros _ _)); apply IH.
Qed.

Lemma keyed_update (d1 d2 : N) : keyed (updatePenguinsStatistics d1 d2).
Proof.
  unfold updatePenguinsStatistics. prog_simpl.
  split; [done |]. intros t _. split; [done |]. intros now _.
  case_bool_decide; [done |]. prog_simpl.
  split; [done |]. intros _ _. split; [done |]. intros now2 _.
  split; [done |]. intros _ _. split; [done |]. intros n _.
  apply keyed_bind; [apply keyed_refresh_from | done].
Qed.

Lemma keyed_statHandler (c : stat) (id : string) (failed : bool) :
  keyed (statHandler c id failed).
Proof.
  assert (Hex : keyed (penguinExists id)).
  { unfold penguinExists. prog_simpl.
    split; [done |]. intros _ _. split; [done |]. intros n _.
    apply keyed_bind; [apply keyed_exists_from | done]. }
  destruct c; unfold statHandler;
    [unfold visitHandler | unfold fishHandler | unfold bellyrubHandler];
    unfold mbind at 1, prog_bind; (apply keyed_bind; [exact Hex |]);
    intros []; [| done | | done | | done];
    prog_simpl; (split; [done |]); intros [e |] He; prog_simpl;
    (split; [by (apply He || done) |]); intros [] _; done.
Qed.

Lemma keyed_serve (r : request) : keyed (serve r).
Proof.
  destruct r as [| d1 d2 | d | c id failed]; simpl serve.
  - by simpl.
  - unfold penguinsHandler. unfold mbind at 1, prog_bind.
    apply keyed_bind; [apply keyed_update |]. intros _. by simpl.
  - by simpl.
  - apply keyed_statHandler.
Qed.

Lemma keyed_inv_step (c c' : config) : keyed_inv c → cstep c c' → keyed_inv c'.
Proof.
  intros Hinv Hstep.
  destruct Hstep as [w m ts r | w w' m ts i o k h x Hi Hen Hsem];
    destruct Hinv as [Hst Hts].
  - split; [done |]. apply Forall_app. split; [done |].
    constructor; [apply keyed_serve | constructor].
  - pose proof (Forall_lookup_1 _ _ _ _ Hts Hi) as [Hput Hk]. simpl in Hk.
    assert (Hans : good_answer o x ∧ store_keyed (store w')).
    { destruct o; simpl in *; try (by simplify_eq/=).
      - destruct (penguins w !! i0); by simplify_eq/=.
      - destruct (penguins w !! i0); by simplify_eq/=.
      - destruct (penguins w !! i0); by simplify_eq/=.
      - destruct (penguins w !! i0); by simplify_eq/=.
      - simplify_eq/=. split; [| done]. intros e He. by apply Hst.
      - destruct failed; simplify_eq/=; split; try done.
        intros k' e'. destruct (decide (dbId e = k')) as [<- | Hne].
        + rewrite lookup_insert_eq. by intros [= <-].
        + rewrite lookup_insert_ne by done. apply Hst. }
    destruct Hans as [Hans Hst']. split; [done |].
    apply Forall_insert; [done |]. by apply Hk.
Qed.

Lemma keyed_inv_rtc (c c' : config) : rtc cstep c c' → keyed_inv c → keyed_inv c'.
Proof.
  induction 1 as [c | c c1 c' Hstep _ IH]; [done |].
  intros Hinv. apply IH. by apply (keyed_inv_step c).
Qed.

(** ** The roster frame and the datastore invariant *)

(** C7: a stat handler leaves every roster entry, the timestamp and the
    clock as they were, and none of its primitives assigns to the roster or
    to the timestamp.  A roster request served within the TTL still shows
    the old counters; one served after the TTL lapsed shows the counters of
    the datastore, which for the entries of the handled id are the
    incremented ones when the put succeeded. *)
Theorem statHandler_roster_untouched (s : world) (c : stat) (id : string)
    (failed : bool) :
  never writes_cache (statHandler c id failed)
  ∧ ∃ s',
      run (statHandler c id failed) s = Some (tt, s')
      ∧ penguins s' = penguins s
      ∧ lastUpdateTime s' = lastUpdateTime s
      ∧ clock s' = clock s
      ∧ (∀ d1 d2 : N, (clock s' + Z.of_N d1 - lastUpdateTime s' ≤ ttl)%Z →
         ∃ s'', run (penguinsHandler d1 d2) s' = Some (tt, s'')
                ∧ body s'' = body s' ++ [Json (penguins s)])
      ∧ (∀ d1 d2 : N, (ttl < clock s' + Z.of_N d1 - lastUpdateTime s')%Z →
         ∃ s'', run (penguinsHandler d1 d2) s' = Some (tt, s'')
                ∧ body s'' = body s'
                             ++ [Json (refreshed (store s') <$> penguins s)])
      ∧ (has_id id (penguins s) = true → failed = false →
         ∀ p, Id p = id →
           refreshed (store s') p
           = applyCounters (bump c (fetched (store s) id)) p).
Proof.
  split; [apply never_statHandler |].
  eexists. split; [apply run_statHandler |].
  set (s' := if has_id id (penguins s) then _ else _).
  assert (Hp : penguins s' = penguins s).
  { subst s'. destruct (has_id _ _); [apply penguins_after_event | done]. }
  assert (Hl : lastUpdateTime s' = lastUpdateTime s).
  { subst s'. unfold after_event.
    by destruct (has_id _ _), failed. }
  assert (Hc : clock s' = clock s).
  { subst s'. unfold after_event.
    by destruct (has_id _ _), failed. }
  repeat split; try done.
  - intros d1 d2 Hfresh. eexists.
    rewrite run_penguinsHandler, run_update_fresh by done.
    split; [done |]. simpl. by rewrite Hp.
  - intros d1 d2 Hstale. eexists.
    rewrite run_penguinsHandler, run_update_stale by done.
    split; [done |]. simpl. by rewrite Hp.
  - intros Hin -> p <-. subst s'. rewrite Hin.
    unfold refreshed. by rewrite store_after_event, fetched_insert.
Qed.

Lemma statHandler_roster_untouched_witness :
  ∃ s', run (visitHandler "p1" false) fresh_world = Some (tt, s')
        ∧ penguins s' = [pingu; pinga]
        ∧ (has_id "p1" (penguins fresh_world) = true
           ∧ refreshed (store s') pingu = mkPenguin "p1" "Pingu" "" 1 0 0).
Proof.
  destruct (statHandler_roster_untouched fresh_world Visit "p1" false)
    as (_ & s' & Hrun & Hp & _ & _ & _ & _ & Hvis).
  exists s'. split; [exact Hrun |]. split; [exact Hp |].
  split; [reflexivity |]. exact (Hvis eq_refl eq_refl pingu eq_refl).
Defined.

(** C10: in every world the server reaches from a fresh datastore, whether
    its handlers run one after the other (restarts included) or interleaved,
    each record of the datastore carries in [Id] the key it is stored under,
    and [dbGetPenguin] returns a record whose [Id] is the id it was asked
    for. *)
Theorem stored_ids_match_keys (s : world) :
  reachable s
  ∨ (∃ ps now m ts,
       rtc cstep (init_world ps now ∅, mkMutex false 0, []) (s, m, ts)) →
  (∀ k e, store s !! k = Some e → dbId e = k)
  ∧ ∀ id, ∃ e s',
      run (dbGetPenguin id) s = Some (e, s') ∧ dbId e = id.
Proof.
  intros Hreach.
  assert (Hk : store_keyed (store s)).
  { destruct Hreach as [Hser | (ps & now & m & ts & Hsteps)].
    - by apply reachable_store_keyed.
    - apply keyed_inv_rtc in Hsteps as [Hst _]; [done |].
      split; [| constructor]. intros k e. simpl. by rewrite lookup_empty. }
  split; [exact Hk |].
  intros id. eexists _, _. split; [apply run_dbGetPenguin |].
  by apply fetched_dbId.
Qed.

Lemma stored_ids_match_keys_witness :
  reachable (after_event Visit "p1" false fresh_world)
  ∧ store (after_event Visit "p1" false fresh_world) !! "p1"
    = Some (mkEntity "p1" 1 0 0)
  ∧ ∃ e s', run (dbGetPenguin "p1") (after_event Visit "p1" false fresh_world)
            = Some (e, s') ∧ dbId e = "p1".
Proof.
  assert (Hreach : reachable (after_event Visit "p1" false fresh_world)).
  { apply (reach_serve fresh_world _ (GetStat Visit "p1" false)).
    - apply reach_init.
    - vm_compute. reflexivity. }
  split; [exact Hreach |]. split; [vm_compute; reflexivity |].
  exact (proj2 (stored_ids_match_keys _ (or_introl Hreach)) "p1").
Defined.

(** ** The roster request, from startup on *)

Lemma run_serve_all_cons (r : request) (rs : list request) (s : world) :
  run (serve_all (r :: rs)) s =
  match run (serve r) s with
  | Some (_, s') => run (serve_all rs) s'
  | None => None
  end.
Proof.
  simpl serve_all. unfold mbind, prog_bind. rewrite run_bind.
  by destruct (run (serve r) s) as [[[] s'] |].
Qed.

Lemma static_refreshed (db : gmap string penguinEntity) (ps : list penguin) :
  static <$> (refreshed db <$> ps) = static <$> ps.
Proof. rewrite <- list_fmap_compose. by apply list_fmap_ext. Qed.

(** X1: the first roster request after [init] always makes a pass, however
    soon it comes: it fetches every entry's record and answers with the
    roster carrying the datastore's counters. *)
Theorem first_request_after_init_refreshes (ps : list penguin) (now : Z)
    (db : gmap string penguinEntity) (d1 d2 : N) :
  ∃ s',
    run (penguinsHandler d1 d2) (init_world ps now db) = Some (tt, s')
    ∧ body s' = [Json (refreshed db <$> ps)]
    ∧ rpcs s' = (RpcGet ∘ Id <$> ps)
    ∧ lastUpdateTime s' = (now + Z.of_N d1 + Z.of_N d2)%Z
    ∧ store s' = db.
Proof.
  eexists. rewrite run_penguinsHandler, run_update_stale.
  - by repeat split.
  - simpl. unfold GoTime.Add, ttl, GoTime.Minute, GoTime.Second,
      GoTime.Nanosecond. lia.
Qed.

(** X2: a roster request always answers with exactly one JSON array, the
    roster as it stands when the handler reads it, and leaves the datastore
    alone.  Within the TTL that is the cached roster, served
    without a datastore call whatever the datastore holds by now; after the
    TTL it is the roster with the datastore's counters.  Ids, names, bios,
    length and order are those of the roster before the request. *)
Theorem penguinsHandler_response (s : world) (d1 d2 : N) :
  ∃ s',
    run (penguinsHandler d1 d2) s = Some (tt, s')
    ∧ body s' = body s ++ [Json (penguins s')]
    ∧ store s' = store s
    ∧ static <$> penguins s' = static <$> penguins s
    ∧ ((clock s + Z.of_N d1 - lastUpdateTime s ≤ ttl)%Z →
       penguins s' = penguins s ∧ rpcs s' = rpcs s
       ∧ lastUpdateTime s' = lastUpdateTime s)
    ∧ ((ttl < clock s + Z.of_N d1 - lastUpdateTime s)%Z →
       penguins s' = (refreshed (store s) <$> penguins s)
       ∧ rpcs s' = rpcs s ++ (RpcGet ∘ Id <$> penguins s)
       ∧ lastUpdateTime s' = clock s').
Proof.
  rewrite run_penguinsHandler, run_update. eexists. split; [done |].
  case_bool_decide as Hfresh; simpl.
  - do 3 (split; [done |]). split; [done | intros Hstale; lia].
  - do 2 (split; [done |]). split; [apply static_refreshed |].
    split; [intros Hle; lia | done].
Qed.

Lemma penguinsHandler_response_witness :
  (clock (set_last 0 stocked_world) + Z.of_N 5
     - lastUpdateTime (set_last 0 stocked_world) ≤ ttl)%Z
  ∧ (ttl < clock stocked_world + Z.of_N 5 - lastUpdateTime stocked_world)%Z
  ∧ (∃ s', run (penguinsHandler 5 0) (set_last 0 stocked_world)
           = Some (tt, s')
           ∧ body s' = [Json [pingu; pinga]] ∧ rpcs s' = [])
  ∧ ∃ s', run (penguinsHandler 5 0) stocked_world = Some (tt, s')
          ∧ body s' = [Json [mkPenguin "p1" "Pingu" "" 5 2 1; pinga]].
Proof.
  split; [vm_compute; discriminate |]. split; [vm_compute; reflexivity |].
  split.
  - destruct (penguinsHandler_response (set_last 0 stocked_world) 5 0)
      as (s' & Hrun & Hbody & _ & _ & Hfresh & _).
    exists s'. split; [exact Hrun |].
    destruct Hfresh as (Hp & Hr & _); [vm_compute; discriminate |].
    rewrite Hbody, Hp, Hr. split; reflexivity.
  - destruct (penguinsHandler_response stocked_world 5 0)
      as (s' & Hrun & Hbody & _ & _ & _ & Hstale).
    exists s'. split; [exact Hrun |].
    destruct Hstale as (Hp & _); [vm_compute; reflexivity |].
    rewrite Hbody, Hp. vm_compute. reflexivity.
Defined.

(** ** What a pass depends on *)

Lemma refreshed_static (db : gmap string penguinEntity) (p q : penguin) :
  static p = static q → refreshed db p = refreshed db q.
Proof.
  unfold static, refreshed, applyCounters. intros [= -> -> ->]. done.
Qed.

Lemma refreshed_static_list (db : gmap string penguinEntity)
    (ps qs : list penguin) :
  static <$> ps = static <$> qs → refreshed db <$> ps = refreshed db <$> qs.
Proof.
  revert qs. induction ps as [| p ps IH]; intros [| q qs] Heq;
    try discriminate; [done |].
  rewrite !fmap_cons in Heq.
  assert (Hhd : static p = static q) by congruence.
  assert (Htl : static <$> ps = static <$> qs) by congruence.
  rewrite !fmap_cons. f_equal; [by apply refreshed_static | by apply IH].
Qed.

(** X3: a pass forgets the cached counters: two worlds with the same ids,
    names and bios in the roster and the same datastore have the same roster
    after a stale [updatePenguinsStatistics], whatever counters they cached;
    a pass does not change the datastore, so a second pass forced right
    after the first one leaves the roster as the first one left it. *)
Theorem pass_depends_on_datastore_only (s1 s2 : world) (d1 d2 e1 e2 : N) :
  static <$> penguins s1 = static <$> penguins s2 →
  store s1 = store s2 →
  (ttl < clock s1 + Z.of_N d1 - lastUpdateTime s1)%Z →
  (ttl < clock s2 + Z.of_N e1 - lastUpdateTime s2)%Z →
  ∃ t1 t2,
    run (updatePenguinsStatistics d1 d2) s1 = Some (tt, t1)
    ∧ run (updatePenguinsStatistics e1 e2) s2 = Some (tt, t2)
    ∧ penguins t1 = penguins t2
    ∧ store t1 = store s1
    ∧ ∀ d0 d3 d4 : N, ∃ t3,
        run (updateHandler d0;; updatePenguinsStatistics d3 d4) t1
          = Some (tt, t3)
        ∧ penguins t3 = penguins t1.
Proof.
  intros Hstatic Hstore Hst1 Hst2. eexists _, _.
  split; [by apply run_update_stale |].
  split; [by apply run_update_stale |].
  split; [simpl; rewrite Hstore; by apply refreshed_static_list |].
  split; [done |].
  intros d0 d3 d4. eexists. unfold mbind, prog_bind.
  rewrite run_bind, run_updateHandler, run_update_stale.
  - split; [done |]. simpl.
    apply refreshed_static_list, static_refreshed.
  - simpl. unfold GoTime.Add, ttl, GoTime.Minute, GoTime.Second,
      GoTime.Nanosecond. lia.
Qed.

Lemma pass_depends_on_datastore_only_witness :
  static <$> penguins stocked_world
  = static <$> [mkPenguin "p1" "Pingu" "" 7 7 7; mkPenguin "p2" "Pinga" "" 9 9 9]
  ∧ ∃ t1 t2,
      run (updatePenguinsStatistics 0 0) stocked_world = Some (tt, t1)
      ∧ run (updatePenguinsStatistics 3 4)
            (set_penguins [mkPenguin "p1" "Pingu" "" 7 7 7;
                           mkPenguin "p2" "Pinga" "" 9 9 9] stocked_world)
        = Some (tt, t2)
      ∧ penguins t1 = penguins t2.
Proof.
  split; [reflexivity |].
  destruct (pass_depends_on_datastore_only stocked_world
              (set_penguins [mkPenguin "p1" "Pingu" "" 7 7 7;
                             mkPenguin "p2" "Pinga" "" 9 9 9] stocked_world)
              0 0 3 4)
    as (t1 & t2 & H1 & H2 & Hp & _);
    [reflexivity | reflexivity | vm_compute; reflexivity
     | vm_compute; reflexivity |].
  exists t1, t2. split; [exact H1 |]. split; [exact H2 | exact Hp].
Defined.

(** ** The stat handlers and the datastore *)

Lemma fetched_insert_ne (db : gmap string penguinEntity) (id id2 : string)
    (e : penguinEntity) :
  id ≠ id2 → fetched (<[id := e]> db) id2 = fetched db id2.
Proof. intros Hne. unfold fetched. by rewrite lookup_insert_ne. Qed.

Lemma store_after_failed_event (c : stat) (id : string) (s : world) :
  store (after_event c id true s) = store s.
Proof. done. Qed.

(** X4: what a stat handler does to the datastore.  After a put that
    succeeded for an id of the roster, [dbGetPenguin] for that id returns
    exactly the record that was put; in every case, unknown id and failed
    put included, the record under any other id is what it was, and when the
    id is unknown or the put fails the datastore as a whole is what it
    was. *)
Theorem statHandler_datastore_frame (s : world) (c : stat) (id : string)
    (failed : bool) :
  ∃ s',
    run (statHandler c id failed) s = Some (tt, s')
    ∧ (∀ id2, id2 ≠ id → store s' !! id2 = store s !! id2)
    ∧ (has_id id (penguins s) = false ∨ failed = true → store s' = store s)
    ∧ (has_id id (penguins s) = true → failed = false →
       ∃ s'', run (dbGetPenguin id) s'
              = Some (bump c (fetched (store s) id), s'')).
Proof.
  eexists. split; [apply run_statHandler |].
  destruct (has_id id (penguins s)) eqn:Hin.
  - destruct failed.
    + split; [done |]. split; [done |]. done.
    + split; [intros id2 Hne; rewrite store_after_event;
              by rewrite lookup_insert_ne |].
      split; [by intros [? | ?] |].
      intros _ _. eexists. rewrite run_dbGetPenguin, store_after_event.
      by rewrite fetched_insert.
  - split; [done |]. split; [done |]. done.
Qed.

Lemma statHandler_datastore_frame_witness :
  ∃ s',
    run (fishHandler "p1" false) stocked_world = Some (tt, s')
    ∧ store s' !! "p2" = None
    ∧ has_id "p1" (penguins stocked_world) = true
    ∧ ∃ s'', run (dbGetPenguin "p1") s'
             = Some (mkEntity "p1" 5 3 1, s'').
Proof.
  destruct (statHandler_datastore_frame stocked_world Fish "p1" false)
    as (s' & Hrun & Hother & _ & Hback).
  exists s'. split; [exact Hrun |].
  split; [rewrite (Hother "p2"); [reflexivity | discriminate] |].
  split; [reflexivity |]. exact (Hback eq_refl eq_refl).
Defined.

(** ** Stat requests in a row *)

Lemma GoInt_add_1_in_range (z : Z) :
  GoInt.in_range z → (z < GoInt.max_int)%Z → GoInt.add z 1 = (z + 1)%Z.
Proof.
  intros Hr Hlt. apply GoInt_wrap_id.
  unfold GoInt.in_range, GoInt.min_int, GoInt.max_int, GoInt.bits in *.
  change (2 ^ (64 - 1))%Z with (2 ^ 63)%Z in *. lia.
Qed.

Lemma counter_iter_bump (c : stat) (e : penguinEntity) (n : nat) :
  GoInt.in_range (counter c e) →
  (counter c e + Z.of_nat n ≤ GoInt.max_int)%Z →
  counter c (Nat.iter n (bump c) e) = (counter c e + Z.of_nat n)%Z.
Proof.
  intros Hr. induction n as [| n IH]; intros Hmax.
  - simpl. lia.
  - simpl Nat.iter. rewrite counter_bump.
    change (GoInt.wrap (?a + 1)) with (GoInt.add a 1).
    rewrite IH by lia. rewrite GoInt_add_1_in_range.
    + lia.
    + unfold GoInt.in_range, GoInt.min_int, GoInt.max_int, GoInt.bits in *.
      change (2 ^ (64 - 1))%Z with (2 ^ 63)%Z in *. lia.
    + lia.
Qed.

Lemma other_iter_bump (c c2 : stat) (e : penguinEntity) (n : nat) :
  c2 ≠ c → counter c2 (Nat.iter n (bump c) e) = counter c2 e.
Proof.
  intros Hne. induction n as [| n IH]; [done |].
  simpl. by rewrite counter_bump_other.
Qed.

Lemma dbId_iter_bump (c : stat) (e : penguinEntity) (n : nat) :
  dbId (Nat.iter n (bump c) e) = dbId e.
Proof. induction n as [| n IH]; [done |]. simpl. by rewrite dbId_bump. Qed.

Lemma run_stat_requests (c : stat) (id : string) (n : nat) (s : world) :
  has_id id (penguins s) = true →
  ∃ s',
    run (serve_all (replicate n (GetStat c id false))) s = Some (tt, s')
    ∧ fetched (store s') id = Nat.iter n (bump c) (fetched (store s) id)
    ∧ penguins s' = penguins s
    ∧ length (rpcs s') = length (rpcs s) + 2 * n.
Proof.
  revert s. induction n as [| n IH]; intros s Hin.
  - exists s. repeat split. simpl. lia.
  - simpl replicate. rewrite run_serve_all_cons. simpl serve.
    rewrite run_statHandler, Hin.
    destruct (IH (after_event c id false s)) as (s' & Hrun & Hf & Hp & Hl).
    { by rewrite penguins_after_event. }
    exists s'. split; [done |].
    split.
    { rewrite Hf, store_after_event, fetched_insert.
      change (bump c (fetched (store s) id))
        with (Nat.iter 1 (bump c) (fetched (store s) id)).
      rewrite <- Nat.iter_add. by rewrite Nat.add_1_r. }
    split; [by rewrite Hp, penguins_after_event |].
    rewrite Hl. unfold after_event, add_rpc. simpl.
    rewrite !length_app. simpl. lia.
Qed.

(** X5: stat requests served one after the other add up: after [n]
    successful requests for the same counter of an id of the roster, the
    record read back has that counter [n] higher, as long as the sum stays
    within the [int] range, and its other fields as they were; the roster is
    untouched and the datastore was called [2 n] times. *)
Theorem serial_increments_add_up (s : world) (c : stat) (id : string)
    (n : nat) :
  has_id id (penguins s) = true →
  GoInt.in_range (counter c (fetched (store s) id)) →
  (counter c (fetched (store s) id) + Z.of_nat n ≤ GoInt.max_int)%Z →
  ∃ s',
    run (serve_all (replicate n (GetStat c id false))) s = Some (tt, s')
    ∧ counter c (fetched (store s') id)
      = (counter c (fetched (store s) id) + Z.of_nat n)%Z
    ∧ (∀ c2, c2 ≠ c →
         counter c2 (fetched (store s') id)
         = counter c2 (fetched (store s) id))
    ∧ dbId (fetched (store s') id) = dbId (fetched (store s) id)
    ∧ penguins s' = penguins s
    ∧ length (rpcs s') = length (rpcs s) + 2 * n.
Proof.
  intros Hin Hr Hmax.
  destruct (run_stat_requests c id n s Hin) as (s' & Hrun & Hf & Hp & Hl).
  exists s'. split; [done |]. rewrite Hf.
  split; [by apply counter_iter_bump |].
  split; [intros c2 Hne; by apply other_iter_bump |].
  split; [apply dbId_iter_bump |]. done.
Qed.

Lemma serial_increments_add_up_witness :
  has_id "p1" (penguins stocked_world) = true
  ∧ GoInt.in_range (counter Bellyrub (fetched (store stocked_world) "p1"))
  ∧ (counter Bellyrub (fetched (store stocked_world) "p1") + Z.of_nat 4
     ≤ GoInt.max_int)%Z
  ∧ ∃ s',
      run (serve_all (replicate 4 (GetStat Bellyrub "p1" false)))
          stocked_world = Some (tt, s')
      ∧ fetched (store s') "p1" = mkEntity "p1" 5 2 5.
Proof.
  assert (Hr : GoInt.in_range
                 (counter Bellyrub (fetched (store stocked_world) "p1")))
    by (split; vm_compute; discriminate).
  assert (Hmax : (counter Bellyrub (fetched (store stocked_world) "p1")
                  + Z.of_nat 4 ≤ GoInt.max_int)%Z)
    by (vm_compute; discriminate).
  split; [reflexivity |]. split; [exact Hr |]. split; [exact Hmax |].
  destruct (serial_increments_add_up stocked_world Bellyrub "p1" 4
              eq_refl Hr Hmax) as (s' & Hrun & Hc & Ho & Hid & _).
  exists s'. split; [exact Hrun |].
  pose proof (Ho Visit ltac:(discriminate)) as Hv.
  pose proof (Ho Fish ltac:(discriminate)) as Hf.
  destruct (fetched (store s') "p1") as [i v f b]. simpl in *.
  by rewrite Hid, Hv, Hf, Hc.
Defined.

Lemma bump_comm (c1 c2 : stat) (e : penguinEntity) :
  bump c1 (bump c2 e) = bump c2 (bump c1 e).
Proof. by destruct c1, c2. Qed.

Lemma has_id_after_stat (c : stat) (id : string) (failed : bool) (id2 : string)
    (s : world) :
  has_id id2 (penguins (if has_id id (penguins s)
                        then after_event c id failed s else s))
  = has_id id2 (penguins s).
Proof.
  destruct (has_id id (penguins s)); [| done].
  by rewrite penguins_after_event.
Qed.

Lemma store_after_stat (c : stat) (id : string) (failed : bool) (s : world) :
  store (if has_id id (penguins s) then after_event c id failed s else s)
  = if has_id id (penguins s) && negb failed
    then <[id := bump c (fetched (store s) id)]> (store s)
    else store s.
Proof. destruct (has_id id (penguins s)), failed; done. Qed.

Lemma run_two_stat_requests (c1 c2 : stat) (id1 id2 : string) (f1 f2 : bool)
    (s : world) :
  run (serve_all [GetStat c1 id1 f1; GetStat c2 id2 f2]) s =
  let s1 := if has_id id1 (penguins s) then after_event c1 id1 f1 s else s in
  Some (tt, if has_id id2 (penguins s1) then after_event c2 id2 f2 s1
            else s1).
Proof.
  rewrite run_serve_all_cons. simpl serve. rewrite run_statHandler.
  rewrite run_serve_all_cons. simpl serve. by rewrite run_statHandler.
Qed.

(** X6: two stat requests commute on the datastore: whatever their
    counters, ids (known or not, equal or not) and put outcomes, serving them
    in either order leaves the same datastore and the same roster. *)
Theorem stat_requests_commute (s : world) (c1 c2 : stat) (id1 id2 : string)
    (f1 f2 : bool) :
  ∃ s12 s21,
    run (serve_all [GetStat c1 id1 f1; GetStat c2 id2 f2]) s
      = Some (tt, s12)
    ∧ run (serve_all [GetStat c2 id2 f2; GetStat c1 id1 f1]) s
      = Some (tt, s21)
    ∧ store s12 = store s21
    ∧ penguins s12 = penguins s21
    ∧ penguins s12 = penguins s.
Proof.
  eexists _, _. rewrite !run_two_stat_requests. cbv zeta.
  split; [done |]. split; [done |].
  destruct (has_id id1 (penguins s)) eqn:H1,
           (has_id id2 (penguins s)) eqn:H2;
    rewrite ?penguins_after_event, ?H1, ?H2, ?penguins_after_event;
    try done.
  split; [| done].
  destruct f1, f2;
    rewrite ?store_after_event, ?store_after_failed_event,
      ?store_after_event, ?store_after_failed_event; try done.
  destruct (decide (id1 = id2)) as [-> | Hne].
  - rewrite !fetched_insert, !insert_insert_eq. by rewrite bump_comm.
  - rewrite !fetched_insert_ne by done. by rewrite insert_insert_ne.
Qed.

(** ** Bounds and known ids, in every interleaving *)

Lemma safe_mono {A} (G : op → Prop) (R : ∀ o, res o → Prop) (p : prog A)
    (Q Q' : A → Prop) :
  (∀ a, Q a → Q' a) → safe G R p Q → safe G R p Q'.
Proof.
  intros HQ. induction p as [a | o k IH]; simpl; [apply HQ |].
  intros [Ho Hk]. split; [done |]. intros x Hx. by apply IH, Hk.
Qed.

Lemma safe_bind {A B} (G : op → Prop) (R : ∀ o, res o → Prop) (p : prog A)
    (f : A → prog B) (Q : B → Prop) :
  safe G R p (fun a => safe G R (f a) Q) → safe G R (bind p f) Q.
Proof.
  induction p as [a | o k IH]; simpl; [done |].
  intros [Ho Hk]. split; [done |]. intros x Hx. by apply IH, Hk.
Qed.

Lemma safe_exists_from (ids : list string) (id : string) (i todo : nat) :
  i + todo ≤ length ids →
  safe (within_roster ids) (roster_answer ids) (exists_from id i todo)
       (fun b => b = true → id ∈ ids).
Proof.
  revert i. induction todo as [| todo IH]; intros i Hle; [done |].
  prog_simpl. split; [lia |]. intros p Hp.
  case_bool_decide as Hid; [simpl; by subst | apply IH; lia].
Qed.

Lemma safe_refresh_from (ids : list string) (i todo : nat) :
  i + todo ≤ length ids →
  safe (within_roster ids) (roster_answer ids) (refresh_from i todo)
       (fun _ => True).
Proof.
  revert i. induction todo as [| todo IH]; intros i Hle; [done |].
  prog_simpl. split; [lia |]. intros p _. split; [done |].
  intros [e |] _; prog_simpl;
    (do 3 (split; [lia |]; intros _ _)); apply IH; lia.
Qed.

Lemma safe_update (ids : list string) (d1 d2 : N) :
  safe (within_roster ids) (roster_answer ids)
       (updatePenguinsStatistics d1 d2) (fun _ => True).
Proof.
  unfold updatePenguinsStatistics. prog_simpl.
  split; [done |]. intros t _. split; [done |]. intros now _.
  case_bool_decide; [done |]. prog_simpl.
  split; [done |]. intros _ _. split; [done |]. intros now2 _.
  split; [done |]. intros _ _. split; [done |]. intros n ->.
  apply safe_bind.
  eapply safe_mono; [| apply safe_refresh_from; lia]. by intros.
Qed.

Lemma safe_penguinExists (ids : list string) (id : string) :
  safe (within_roster ids) (roster_answer ids) (penguinExists id)
       (fun b => b = true → id ∈ ids).
Proof.
  unfold penguinExists. prog_simpl.
  split; [done |]. intros _ _. split; [done |]. intros n ->.
  apply safe_bind.
  eapply safe_mono; [| apply safe_exists_from; lia].
  intros b Hb. by simpl.
Qed.

Lemma safe_statHandler (ids : list string) (c : stat) (id : string)
    (failed : bool) :
  safe (within_roster ids) (roster_answer ids) (statHandler c id failed)
       (fun _ => True).
Proof.
  destruct c; unfold statHandler;
    [unfold visitHandler | unfold fishHandler | unfold bellyrubHandler];
    unfold mbind at 1, prog_bind; apply safe_bind;
    (eapply safe_mono; [| apply safe_penguinExists]);
    intros [] Hin; [| done | | done | | done];
    prog_simpl; (split; [done |]); intros [e |] _; prog_simpl;
    (split; [by apply Hin |]); intros [] _; done.
Qed.

Lemma safe_serve (ids : list string) (r : request) :
  safe (within_roster ids) (roster_answer ids) (serve r) (fun _ => True).
Proof.
  destruct r as [| d1 d2 | d | c id failed]; simpl serve.
  - by simpl.
  - unfold penguinsHandler. unfold mbind at 1, prog_bind.
    apply safe_bind.
    eapply safe_mono; [| apply safe_update]. intros _ _. by simpl.
  - by simpl.
  - apply safe_statHandler.
Qed.

Lemma fmap_Id_insert (ps : list penguin) (i : nat) (p q : penguin) :
  ps !! i = Some p → Id q = Id p → Id <$> <[i := q]> ps = Id <$> ps.
Proof.
  intros Hi Hq. rewrite list_fmap_insert, Hq.
  apply list_insert_id. by rewrite list_lookup_fmap, Hi.
Qed.

(** What one primitive within the roster does: it does not panic, it is
    answered as assumed, and it keeps the ids of the roster. *)
Lemma op_sem_within_roster (ids : list string) (o : op) (w : world) :
  Id <$> penguins w = ids → within_roster ids o →
  ∃ x w', op_sem o w = Some (x, w')
          ∧ roster_answer ids o x ∧ Id <$> penguins w' = ids.
Proof.
  intros Hids Hg.
  assert (Hlook : ∀ i, i < length ids → ∃ p, penguins w !! i = Some p).
  { intros i Hi. apply lookup_lt_is_Some.
    by rewrite <- Hids, length_fmap in Hi. }
  destruct o; simpl in *;
    try (eexists _, _; split; [done |]; by split).
  - (* len_penguins *)
    eexists _, _. split; [done |]. split; [| done].
    by rewrite <- Hids, length_fmap.
  - (* penguins_at *)
    destruct (Hlook i Hg) as [p Hp]. rewrite Hp. simpl.
    eexists _, _. split; [done |]. split; [| done].
    rewrite <- Hids. apply list_elem_of_fmap. exists p. split; [done |].
    by apply list_elem_of_lookup_2 in Hp.
  - destruct (Hlook i Hg) as [p Hp]. rewrite Hp. simpl.
    eexists _, _. split; [done |]. split; [done |]. simpl.
    rewrite <- Hids. by apply (fmap_Id_insert _ _ p).
  - destruct (Hlook i Hg) as [p Hp]. rewrite Hp. simpl.
    eexists _, _. split; [done |]. split; [done |]. simpl.
    rewrite <- Hids. by apply (fmap_Id_insert _ _ p).
  - destruct (Hlook i Hg) as [p Hp]. rewrite Hp. simpl.
    eexists _, _. split; [done |]. split; [done |]. simpl.
    rewrite <- Hids. by apply (fmap_Id_insert _ _ p).
  - (* datastore_Put *)
    destruct failed; eexists _, _; (split; [done |]); by split.
Qed.

Lemma roster_inv_step (ids : list string) (c c' : config) :
  roster_inv ids c → cstep c c' → roster_inv ids c'.
Proof.
  intros Hinv Hstep.
  destruct Hstep as [w m ts r | w w' m ts i o k h x Hi Hen Hsem];
    destruct Hinv as [Hids Hts].
  - split; [done |]. apply Forall_app. split; [done |].
    constructor; [apply safe_serve | constructor].
  - pose proof (Forall_lookup_1 _ _ _ _ Hts Hi) as [Hg Hk]. simpl in Hk.
    destruct (op_sem_within_roster ids o w Hids Hg)
      as (x' & w'' & Hsem' & Hans & Hids').
    rewrite Hsem in Hsem'. injection Hsem' as <- <-.
    split; [done |]. apply Forall_insert; [done |]. by apply Hk.
Qed.

Lemma roster_inv_rtc (ids : list string) (c c' : config) :
  rtc cstep c c' → roster_inv ids c → roster_inv ids c'.
Proof.
  induction 1 as [c | c c1 c' Hstep _ IH]; [done |].
  intros Hinv. apply IH. by apply (roster_inv_step ids c).
Qed.

Lemma creachable_rtc (c c' : config) :
  rtc cstep c c' → creachable c → creachable c'.
Proof.
  induction 1 as [c | c c1 c' Hstep _ IH]; [done |].
  intros Hc. apply IH. by apply (creach_step c).
Qed.

Lemma init_invariants (ps : list penguin) (now : Z)
    (db : gmap string penguinEntity) (c : config) :
  rtc cstep (init_world ps now db, mkMutex false 0, []) c →
  lock_inv c ∧ roster_inv (Id <$> ps) c.
Proof.
  intros Hsteps. split.
  - apply creachable_lock_inv, (creachable_rtc _ _ Hsteps), creach_init.
  - apply (roster_inv_rtc _ _ _ Hsteps). by split.
Qed.

Lemma nobody_holds (ts : list goroutine) :
  Forall (fun t : goroutine => t.2 = NoLock) ts →
  sum_list_with reading ts = 0 ∧ sum_list_with writing ts = 0.
Proof.
  induction 1 as [| [p h] ts Hh _ [IHr IHw]]; [done |].
  simpl in Hh. subst h. simpl. by rewrite IHr, IHw.
Qed.

(** A goroutine whose next primitive is allowed by what it holds, within the
    roster and not made to wait, takes its step. *)
Lemma step_at_ready (ids : list string) (w : world) (m : rwmutex)
    (ts : list goroutine) (i : nat) (o : op) (k : res o → prog unit)
    (h : held) :
  Id <$> penguins w = ids → within_roster ids o →
  ts !! i = Some (Vis o k, h) → mutex_enabled o m = true →
  ∃ c', step_at i (w, m, ts) = Some c'.
Proof.
  intros Hids Hg Hi Hen.
  destruct (op_sem_within_roster ids o w Hids Hg) as (x & w' & Hsem & _).
  eexists. unfold step_at. by rewrite Hi, Hen, Hsem.
Qed.

(** X7: in every interleaving of requests, from startup on, no goroutine
    indexes the roster out of range (its next primitive never panics), a
    handler that has returned holds no lock, and as long as some handler has
    not returned some goroutine can take a step: the server never
    deadlocks. *)
Theorem interleavings_never_stuck (ps : list penguin) (now : Z)
    (db : gmap string penguinEntity) (c : config) :
  rtc cstep (init_world ps now db, mkMutex false 0, []) c →
  (∀ i o k h, c.2 !! i = Some (Vis o k, h) → is_Some (op_sem o c.1.1))
  ∧ Forall (fun t : goroutine => finished t = true → t.2 = NoLock) c.2
  ∧ (Exists (fun t : goroutine => finished t = false) c.2 →
     ∃ j c', step_at j c = Some c').
Proof.
  intros Hsteps.
  destruct (init_invariants ps now db c Hsteps) as [Hlock Hroster].
  destruct c as [[w m] ts]. simpl.
  destruct Hlock as (Hd & Hr & Hw & Hx). destruct Hroster as [Hids Hsafe].
  split; [| split].
  - intros i o k h Hi.
    pose proof (Forall_lookup_1 _ _ _ _ Hsafe Hi) as [Hg _].
    destruct (op_sem_within_roster _ o w Hids Hg) as (x & w' & -> & _).
    by eexists.
  - apply Forall_forall. intros [p h] Hin Hfin.
    pose proof (proj1 (Forall_forall _ _) Hd _ Hin) as Hdisc.
    unfold finished in Hfin. simpl in *. destruct p; [exact Hdisc | done].
  - intros Hun.
    destruct (decide (Forall (fun t : goroutine => t.2 = NoLock) ts))
      as [Hfree | Hheld].
    + (* nobody holds the mutex: it is free, any unfinished goroutine runs *)
      destruct (nobody_holds ts Hfree) as [Hr0 Hw0].
      rewrite Hr0 in Hr. rewrite Hw0 in Hw.
      apply Exists_exists in Hun as ([p h] & Hin & Hfin).
      apply list_elem_of_lookup in Hin as [i Hi].
      unfold finished in Hfin. simpl in Hfin.
      destruct p as [a | o k]; [done |].
      pose proof (Forall_lookup_1 _ _ _ _ Hfree Hi) as Hh. simpl in Hh.
      subst h.
      pose proof (Forall_lookup_1 _ _ _ _ Hd Hi) as [Hal _].
      pose proof (Forall_lookup_1 _ _ _ _ Hsafe Hi) as [Hg _].
      simpl in Hal. exists i.
      apply (step_at_ready _ w m ts i o k NoLock Hids Hg Hi).
      destruct m as [wr rd]. simpl in *.
      destruct wr; [lia |]. subst rd.
      by destruct o.
    + (* somebody holds it: that goroutine runs *)
      apply not_Forall_Exists in Hheld; [| intros t; apply _].
      apply Exists_exists in Hheld as ([p h] & Hin & Hh).
      apply list_elem_of_lookup in Hin as [i Hi]. simpl in Hh.
      pose proof (Forall_lookup_1 _ _ _ _ Hd Hi) as Hdisc.
      unfold disciplined in Hdisc. simpl in Hdisc.
      destruct p as [a | o k]; [done |]. destruct Hdisc as [Hal _].
      pose proof (Forall_lookup_1 _ _ _ _ Hsafe Hi) as [Hg _].
      pose proof (sum_list_with_lookup reading ts i _ Hi) as Hri.
      pose proof (sum_list_with_lookup writing ts i _ Hi) as Hwi.
      unfold reading at 1 in Hri. unfold writing at 1 in Hwi.
      simpl in Hri, Hwi. rewrite Hr in Hri. rewrite Hw in Hwi.
      exists i.
      apply (step_at_ready _ w m ts i o k h Hids Hg Hi).
      destruct m as [wr rd]. simpl in *.
      destruct o; simpl in *; try done; subst; simpl in *.
      * destruct wr; [done | lia].
      * apply bool_decide_eq_true. lia.
Qed.

Lemma schedule_rtc (sched : list nat) (c c' : config) :
  schedule sched c = Some c' → rtc cstep c c'.
Proof.
  revert c. induction sched as [| i sched IH]; intros c; simpl.
  - by intros [= <-].
  - destruct (step_at i c) as [c1 |] eqn:Hstep; [| discriminate].
    intros Hc'. eapply rtc_l; [by apply (step_at_sound i) | by apply IH].
Qed.

Lemma rtc_to_mid_pass :
  rtc cstep (init_world [pingu; pinga] 0 {[ "p1" := mkEntity "p1" 5 2 1 ]},
             mkMutex false 0, []) mid_pass.
Proof.
  eapply rtc_l.
  { apply (cstep_arrive _ _ [] (GetPenguins 0 0)). }
  eapply rtc_l.
  { apply (cstep_arrive _ _ [(serve (GetPenguins 0 0), NoLock)]
             (GetStat Visit "p1" false)). }
  unfold mid_pass.
  destruct (schedule _ two_requests) as [c |] eqn:Hc; [| done].
  by apply (schedule_rtc _ _ _ Hc).
Qed.

Lemma interleavings_never_stuck_witness :
  rtc cstep (init_world [pingu; pinga] 0 {[ "p1" := mkEntity "p1" 5 2 1 ]},
             mkMutex false 0, []) mid_pass
  ∧ (finished <$> mid_pass.2) = [false; false]
  ∧ schedule [1] mid_pass = None
  ∧ ∃ j c', step_at j mid_pass = Some c'.
Proof.
  split; [exact rtc_to_mid_pass |].
  split; [vm_compute; reflexivity |]. split; [vm_compute; reflexivity |].
  destruct (interleavings_never_stuck _ _ _ _ rtc_to_mid_pass)
    as (_ & _ & Hstep).
  apply Hstep. apply (Exists_exists _ mid_pass.2).
  destruct (mid_pass.2 !! 0) as [t |] eqn:Ht; [| vm_compute in Ht; discriminate Ht].
  exists t. split; [by apply list_elem_of_lookup_2 in Ht |].
  assert (Hf : finished <$> mid_pass.2 !! 0 = Some false)
    by (vm_compute; reflexivity).
  rewrite Ht in Hf. by injection Hf.
Defined.

(** ** The datastore only holds ids of the roster *)

Lemma op_sem_store (o : op) (w w' : world) (x : res o) :
  op_sem o w = Some (x, w') →
  store w' = store w
  ∨ ∃ key e, o = datastore_Put false key e ∧ store w' = <[key := e]> (store w).
Proof.
  destruct o; simpl; intros Hsem; try (left; by simplify_eq/=).
  - destruct (penguins w !! i); simplify_eq/=. by left.
  - destruct (penguins w !! i); simplify_eq/=. by left.
  - destruct (penguins w !! i); simplify_eq/=. by left.
  - destruct (penguins w !! i); simplify_eq/=. by left.
  - destruct failed; simplify_eq/=; [by left |]. right. by eexists _, _.
Qed.

Lemma known_keys_step (ids : list string) (c c' : config) :
  roster_inv ids c → cstep c c' →
  (∀ k, is_Some (store c.1.1 !! k) → k ∈ ids) →
  (∀ k, is_Some (store c'.1.1 !! k) → k ∈ ids).
Proof.
  intros Hinv Hstep Hkeys.
  destruct Hstep as [w m ts r | w w' m ts i o k h x Hi Hen Hsem]; [done |].
  destruct Hinv as [_ Hts]. simpl in *.
  pose proof (Forall_lookup_1 _ _ _ _ Hts Hi) as [Hg _].
  destruct (op_sem_store o w w' x Hsem) as [-> | (key & e & -> & ->)];
    [done |].
  intros k'. destruct (decide (key = k')) as [<- | Hne]; [by intros _ |].
  rewrite lookup_insert_ne by done. apply Hkeys.
Qed.

Lemma known_keys_rtc (ids : list string) (c c' : config) :
  rtc cstep c c' → roster_inv ids c →
  (∀ k, is_Some (store c.1.1 !! k) → k ∈ ids) →
  (∀ k, is_Some (store c'.1.1 !! k) → k ∈ ids).
Proof.
  induction 1 as [c | c c1 c' Hstep _ IH]; [done |].
  intros Hinv Hkeys. apply IH.
  - by apply (roster_inv_step ids c).
  - by apply (known_keys_step ids c).
Qed.

(** X8: handlers only create records for ids of the roster: if at startup
    every key of the datastore is an id of the roster (an empty datastore for
    one), then so it is in every interleaving of requests, and the ids of
    the roster are those loaded at startup. *)
Theorem datastore_keys_are_roster_ids (ps : list penguin) (now : Z)
    (db : gmap string penguinEntity) (c : config) :
  (∀ k, is_Some (db !! k) → k ∈ Id <$> ps) →
  rtc cstep (init_world ps now db, mkMutex false 0, []) c →
  Id <$> penguins c.1.1 = Id <$> ps
  ∧ ∀ k, is_Some (store c.1.1 !! k) → k ∈ Id <$> ps.
Proof.
  intros Hdb Hsteps.
  assert (Hinit : roster_inv (Id <$> ps)
                    (init_world ps now db, mkMutex false 0, []))
    by by split.
  split.
  - pose proof (roster_inv_rtc _ _ _ Hsteps Hinit) as Hinv.
    destruct c as [[w m] ts]. by destruct Hinv.
  - by apply (known_keys_rtc _ _ _ Hsteps Hinit).
Qed.

Lemma datastore_keys_are_roster_ids_witness :
  (∀ k, is_Some (({[ "p1" := mkEntity "p1" 5 2 1 ]}
                    : gmap string penguinEntity) !! k) →
        k ∈ Id <$> [pingu; pinga])
  ∧ rtc cstep (init_world [pingu; pinga] 0
                 {[ "p1" := mkEntity "p1" 5 2 1 ]}, mkMutex false 0, [])
        mid_pass
  ∧ Id <$> penguins mid_pass.1.1 = ["p1"; "p2"]
  ∧ ∀ k, is_Some (store mid_pass.1.1 !! k) → k ∈ ["p1"; "p2"].
Proof.
  assert (Hdb : ∀ k, is_Some (({[ "p1" := mkEntity "p1" 5 2 1 ]}
                                 : gmap string penguinEntity) !! k) →
                     k ∈ Id <$> [pingu; pinga]).
  { intros k [e He]. apply lookup_singleton_Some in He as [<- _].
    simpl. apply elem_of_cons. by left. }
  split; [exact Hdb |]. split; [exact rtc_to_mid_pass |].
  exact (datastore_keys_are_roster_ids _ _ _ _ Hdb rtc_to_mid_pass).
Defined.

(** ** Ids, names and bios never change *)

Lemma static_insert (ps : list penguin) (i : nat) (p q : penguin) :
  ps !! i = Some p → static q = static p →
  static <$> <[i := q]> ps = static <$> ps.
Proof.
  intros Hi Hq. rewrite list_fmap_insert, Hq.
  apply list_insert_id. by rewrite list_lookup_fmap, Hi.
Qed.

Lemma op_sem_static (o : op) (w w' : world) (x : res o) :
  op_sem o w = Some (x, w') →
  static <$> penguins w' = static <$> penguins w.
Proof.
  destruct o; simpl; intros Hsem; try (by simplify_eq/=).
  - destruct (penguins w !! i); by simplify_eq/=.
  - destruct (penguins w !! i) as [p |] eqn:Hp; simplify_eq/=.
    by apply (static_insert _ _ p).
  - destruct (penguins w !! i) as [p |] eqn:Hp; simplify_eq/=.
    by apply (static_insert _ _ p).
  - destruct (penguins w !! i) as [p |] eqn:Hp; simplify_eq/=.
    by apply (static_insert _ _ p).
  - by destruct failed; simplify_eq/=.
Qed.

Lemma run_static {A} (p : prog A) (s s' : world) (a : A) :
  run p s = Some (a, s') → static <$> penguins s' = static <$> penguins s.
Proof.
  revert s. induction p as [a0 | o k IH]; intros s; simpl.
  - by intros [= _ <-].
  - destruct (op_sem o s) as [[x s1] |] eqn:Hsem; [| done].
    intros Hrun. rewrite (IH x s1 Hrun). by apply (op_sem_static o s s1 x).
Qed.

Lemma cstep_static (c c' : config) :
  cstep c c' → static <$> penguins c'.1.1 = static <$> penguins c.1.1.
Proof.
  intros [w m ts r | w w' m ts i o k h x Hi Hen Hsem]; [done |].
  by apply (op_sem_static o w w' x).
Qed.

(** X9: no handler ever changes the length or the order of the roster or the
    id, name or bio of an entry, neither served alone nor interleaved with
    others; so the count that [rootHandler] reports is, at any moment, the
    number of penguins loaded at startup. *)
Theorem roster_static_fields_invariant (ps : list penguin) (now : Z)
    (db : gmap string penguinEntity) (c : config) :
  rtc cstep (init_world ps now db, mkMutex false 0, []) c →
  static <$> penguins c.1.1 = static <$> ps
  ∧ length (penguins c.1.1) = length ps
  ∧ run rootHandler c.1.1 = Some (tt, add_body (Greeting (length ps)) c.1.1)
  ∧ ∀ r s', run (serve r) c.1.1 = Some (tt, s') →
      static <$> penguins s' = static <$> ps.
Proof.
  intros Hsteps.
  assert (Hst : static <$> penguins c.1.1 = static <$> ps).
  { remember (init_world ps now db, mkMutex false 0, []) as c0 eqn:Hc0.
    assert (Hgoal : static <$> penguins c.1.1 = static <$> penguins c0.1.1).
    { clear Hc0. induction Hsteps as [c | c c1 c' Hstep _ IH]; [done |].
      rewrite IH. by apply cstep_static. }
    by rewrite Hgoal, Hc0. }
  assert (Hlen : length (penguins c.1.1) = length ps).
  { by rewrite <- (length_fmap static), Hst, length_fmap. }
  split; [done |]. split; [done |]. split.
  - unfold rootHandler. prog_simpl. by rewrite Hlen.
  - intros r s' Hrun. by rewrite (run_static _ _ _ _ Hrun).
Qed.

Lemma roster_static_fields_invariant_witness :
  rtc cstep (init_world [pingu; pinga] 0 {[ "p1" := mkEntity "p1" 5 2 1 ]},
             mkMutex false 0, []) mid_pass
  ∧ penguins mid_pass.1.1 = [mkPenguin "p1" "Pingu" "" 5 0 0; pinga]
  ∧ static <$> penguins mid_pass.1.1 = static <$> [pingu; pinga]
  ∧ body <$> (snd <$> run rootHandler mid_pass.1.1) = Some [Greeting 2].
Proof.
  split; [exact rtc_to_mid_pass |]. split; [vm_compute; reflexivity |].
  destruct (roster_static_fields_invariant _ _ _ _ rtc_to_mid_pass)
    as (Hst & _ & Hroot & _).
  split; [exact Hst |]. rewrite Hroot. vm_compute. reflexivity.
Defined.

(** ** A goroutine running alone, and two overlapping ones *)

(** A goroutine that respects the locking discipline, run without
    interruption while the mutex is in the state of what it holds, goes
    through the part [p] of its code as the serial semantics says. *)
Lemma solo_frame {A} (K : prog A → prog unit)
    (HK : ∀ o k, K (Vis o k) = Vis o (fun x => K (k x)))
    (p : prog A) (h : held) (Q : A → held → Prop) (w w' : world) (a : A)
    (ts : list goroutine) (i : nat) :
  locks p h Q → run p w = Some (a, w') → ts !! i = Some (K p, h) →
  ∃ h', Q a h'
        ∧ rtc cstep (w, mutex_of h, ts)
                    (w', mutex_of h', <[i := (K (Ret a), h')]> ts).
Proof.
  revert h w ts. induction p as [a0 | o k IH]; intros h w ts; simpl.
  - intros HQ [= <- <-] Hi. exists h. split; [done |].
    by rewrite list_insert_id.
  - intros [Hal Hk] Hrun Hi.
    destruct (op_sem o w) as [[x w1] |] eqn:Hsem; [| done].
    destruct (mutex_of_step o h Hal) as [Hen Hafter].
    rewrite HK in Hi.
    destruct (IH x (held_after o h) w1
                (<[i := (K (k x), held_after o h)]> ts) (Hk x) Hrun)
      as (h' & HQ & Hsteps).
    { apply list_lookup_insert_eq. by apply lookup_lt_Some in Hi. }
    exists h'. split; [done |].
    rewrite list_insert_insert_eq in Hsteps.
    eapply rtc_l; [| exact Hsteps]. rewrite <- Hafter.
    by apply (cstep_run w w1 (mutex_of h) ts i o (fun x => K (k x)) h x).
Qed.

(** X10: a request that is served without another goroutine running in
    between, from a free mutex, goes through without waiting and leaves the
    world of the serial semantics and a free mutex: every serial history is
    an interleaving of the server. *)
Theorem served_alone (ts : list goroutine) (r : request) (s : world) :
  ∃ s',
    run (serve r) s = Some (tt, s')
    ∧ rtc cstep (s, mkMutex false 0, ts ++ [(serve r, NoLock)])
                (s', mkMutex false 0, ts ++ [(Ret tt, NoLock)]).
Proof.
  destruct (serve_total r s) as [s' Hrun]. exists s'. split; [done |].
  destruct (solo_frame (fun p => p) (fun _ _ => eq_refl) (serve r) NoLock _
              s s' tt (ts ++ [(serve r, NoLock)]) (length ts)
              (locks_serve r) Hrun) as (h' & -> & Hsteps).
  { by apply list_lookup_middle. }
  by rewrite insert_middle in Hsteps.
Qed.

(** [dbGetPenguin] is one step of a goroutine. *)
Lemma step_dbGetPenguin (G : penguinEntity → prog unit) (w : world)
    (m : rwmutex) (ts : list goroutine) (i : nat) (h : held) (id : string) :
  ts !! i = Some (bind (dbGetPenguin id) G, h) →
  cstep (w, m, ts)
        (add_rpc (RpcGet id) w, m, <[i := (G (fetched (store w) id), h)]> ts).
Proof.
  intros Hi.
  assert (Hcode : bind (match store w !! id with
                        | Some p => mret p
                        | None => mret (with_dbId id zeroEntity)
                        end) G = G (fetched (store w) id)).
  { unfold fetched. by destruct (store w !! id). }
  rewrite <- Hcode.
  by apply (cstep_run w (add_rpc (RpcGet id) w) m ts i (datastore_Get id)
              (fun r => bind (match r with
                              | Some p => mret p
                              | None => mret (with_dbId id zeroEntity)
                              end) G) h (store w !! id)).
Qed.

(** X11: the increment of a stat handler is not atomic.  Two overlapping
    requests for the same counter of the same id of the roster can both read
    the record before either writes it: both return normally, both puts
    succeed, and the counter ends up incremented once. *)
Theorem overlapping_stat_requests_lose_an_update (w : world) (c : stat)
    (id : string) :
  has_id id (penguins w) = true →
  ∃ w',
    rtc cstep (w, mkMutex false 0,
               [(statHandler c id false, NoLock);
                (statHandler c id false, NoLock)])
              (w', mkMutex false 0, [(Ret tt, NoLock); (Ret tt, NoLock)])
    ∧ store w' = <[id := bump c (fetched (store w) id)]> (store w)
    ∧ counter c (fetched (store w') id)
      = GoInt.wrap (counter c (fetched (store w) id) + 1)
    ∧ filter (fun r => is_put r = true) (rpcs w')
      = filter (fun r => is_put r = true) (rpcs w)
        ++ [RpcPut id (bump c (fetched (store w) id)) false;
            RpcPut id (bump c (fetched (store w) id)) false].
Proof.
  intros Hin.
  assert (Hpe : run (penguinExists id) w = Some (true, w))
    by (by rewrite run_penguinExists, Hin).
  set (e0 := fetched (store w) id).
  set (w1 := add_rpc (RpcGet id) w).
  set (w3 := after_event c id false w1).
  set (w4 := add_rpc (RpcPut id (bump c e0) false)
               (set_store (<[id := bump c e0]> (store w3)) w3)).
  assert (Hstore : store w4 = <[id := bump c e0]> (store w)).
  { subst w4 w3 w1. simpl. apply insert_insert_eq. }
  exists w4. split; [| split; [exact Hstore | split]].
  - (* the first goroutine up to its get *)
    assert (S12 : ∃ G : penguinEntity → prog unit,
              (∀ e, G e = Vis (datastore_Put false id (bump c e))
                            (fun err : bool =>
                               if err then call (c_Errorf put_error)
                               else Ret tt))
              ∧ rtc cstep (w, mkMutex false 0,
                           [(statHandler c id false, NoLock);
                            (statHandler c id false, NoLock)])
                          (w1, mkMutex false 0,
                           [(G e0, NoLock);
                            (statHandler c id false, NoLock)])).
    { destruct c; unfold statHandler at 1;
        [unfold visitHandler at 1 | unfold fishHandler at 1
         | unfold bellyrubHandler at 1];
        unfold mbind at 1, prog_bind;
        lazymatch goal with
        | |- context [[(bind (penguinExists id) ?F, NoLock); ?B]] =>
            destruct (solo_frame (fun p => bind p F) (fun _ _ => eq_refl)
                        (penguinExists id) NoLock _ w w true
                        [(bind (penguinExists id) F, NoLock); B] 0
                        (locks_penguinExists id) Hpe eq_refl)
              as (h' & -> & S1)
        end;
        (eexists; split; [intros e; reflexivity |]);
        (etrans; [exact S1 |]); apply rtc_once;
        lazymatch goal with
        | |- cstep (_, _, ?ts) _ =>
            exact (step_dbGetPenguin _ w (mkMutex false 0) ts 0 NoLock id
                     eq_refl)
        end. }
    destruct S12 as (G & HG & S12). etrans; [exact S12 |].
    (* the second goroutine from start to end *)
    assert (Hrun2 : run (statHandler c id false) w1 = Some (tt, w3)).
    { rewrite run_statHandler. subst w1. simpl. by rewrite Hin. }
    destruct (solo_frame (fun p => p) (fun _ _ => eq_refl)
                (statHandler c id false) NoLock _ w1 w3 tt
                [(G e0, NoLock); (statHandler c id false, NoLock)] 1
                (locks_statHandler c id false) Hrun2 eq_refl)
      as (h' & -> & S3).
    etrans; [exact S3 |]. simpl.
    (* the put of the first goroutine *)
    apply rtc_once. rewrite HG.
    lazymatch goal with
    | |- cstep (_, _, ?ts) _ =>
        exact (cstep_run w3 w4 (mkMutex false 0) ts 0
                 (datastore_Put false id (bump c e0)) _ NoLock false
                 eq_refl eq_refl eq_refl)
    end.
  - rewrite Hstore, fetched_insert. apply counter_bump.
  - subst w4 w3 w1 e0. unfold after_event. simpl.
    rewrite !filter_app. simpl. by rewrite <- !app_assoc.
Qed.

Lemma overlapping_stat_requests_lose_an_update_witness :
  has_id "p1" (penguins stocked_world) = true
  ∧ ∃ w',
      rtc cstep (stocked_world, mkMutex false 0,
                 [(visitHandler "p1" false, NoLock);
                  (visitHandler "p1" false, NoLock)])
                (w', mkMutex false 0, [(Ret tt, NoLock); (Ret tt, NoLock)])
      ∧ store w' !! "p1" = Some (mkEntity "p1" 6 2 1).
Proof.
  split; [reflexivity |].
  destruct (overlapping_stat_requests_lose_an_update stocked_world Visit "p1"
              eq_refl) as (w' & Hsteps & Hstore & _).
  exists w'. split; [exact Hsteps |]. rewrite Hstore. vm_compute. reflexivity.
Defined.

(** ** Two overlapping roster requests *)

Lemma penguinsHandler_parts (d1 d2 : N) :
  penguinsHandler d1 d2
  = bind (updatePenguinsStatistics d1 d2) (fun _ => roster_reply).
Proof. reflexivity. Qed.

Lemma run_refresh_pass (d2 : N) (s : world) :
  run (refresh_pass d2) s = Some (tt, refresh_world (clock s + Z.of_N d2) s).
Proof.
  unfold refresh_pass. prog_simpl. rewrite run_bind.
  by rewrite (run_refresh_from [] (penguins s)).
Qed.

Lemma locks_refresh_pass (d2 : N) :
  locks (refresh_pass d2) NoLock (fun _ h' => h' = NoLock).
Proof.
  unfold refresh_pass. prog_simpl.
  split; [done |]. intros _. split; [done |]. intros now2.
  split; [done |]. intros _. split; [done |]. intros n.
  apply locks_bind.
  eapply locks_mono; [| apply locks_refresh_from].
  intros _ h' ->. by simpl.
Qed.

Lemma run_pass_and_reply (d2 : N) (s : world) :
  run (bind (refresh_pass d2) (fun _ => roster_reply)) s
  = Some (tt, add_body (Json (refreshed (store s) <$> penguins s))
                       (refresh_world (clock s + Z.of_N d2) s)).
Proof. by rewrite run_bind, run_refresh_pass. Qed.

Lemma locks_pass_and_reply (d2 : N) :
  locks (bind (refresh_pass d2) (fun _ => roster_reply)) NoLock
        (fun _ h' => h' = NoLock).
Proof.
  apply locks_bind. eapply locks_mono; [| apply locks_refresh_pass].
  intros _ h' ->. simpl. split; [done |]. intros _.
  split; [done |]. intros ps. by simpl.
Qed.

(** The staleness check of a roster request: two steps, after which the
    goroutine is committed to a pass if it found the cache stale. *)
Lemma check_steps (w : world) (m : rwmutex) (ts : list goroutine) (i : nat)
    (d1 d2 : N) :
  ts !! i = Some (penguinsHandler d1 d2, NoLock) →
  (ttl < clock w + Z.of_N d1 - lastUpdateTime w)%Z →
  rtc cstep (w, m, ts)
            (set_clock (clock w + Z.of_N d1) w, m,
             <[i := (bind (refresh_pass d2) (fun _ => roster_reply),
                     NoLock)]> ts).
Proof.
  intros Hi Hstale.
  assert (Hlen : i < length ts) by (by apply lookup_lt_Some in Hi).
  eapply rtc_l.
  { exact (cstep_run w w m ts i get_lastUpdateTime _ NoLock
             (lastUpdateTime w) Hi eq_refl eq_refl). }
  eapply rtc_l.
  { refine (cstep_run w (set_clock (clock w + Z.of_N d1) w) m _ i
              (time_Now d1) _ NoLock (clock w + Z.of_N d1)%Z _ eq_refl
              eq_refl).
    by apply list_lookup_insert_eq. }
  rewrite list_insert_insert_eq. simpl.
  rewrite bool_decide_eq_false_2 by (rewrite Sub_le_ttl; lia).
  apply rtc_refl.
Qed.

(** X12: the staleness check is not covered by the lock, so two overlapping
    roster requests can both find the cache stale before either locks; each
    then makes its own pass, one after the other: every entry's record is
    fetched twice and both answers carry the refreshed roster. *)
Theorem overlapping_roster_requests_refresh_twice (w : world)
    (d1 d2 e1 e2 : N) :
  (ttl < clock w + Z.of_N d1 - lastUpdateTime w)%Z →
  ∃ w',
    rtc cstep (w, mkMutex false 0,
               [(penguinsHandler d1 d2, NoLock);
                (penguinsHandler e1 e2, NoLock)])
              (w', mkMutex false 0, [(Ret tt, NoLock); (Ret tt, NoLock)])
    ∧ rpcs w' = rpcs w ++ (RpcGet ∘ Id <$> penguins w)
                       ++ (RpcGet ∘ Id <$> penguins w)
    ∧ body w' = body w ++ [Json (refreshed (store w) <$> penguins w);
                           Json (refreshed (store w) <$> penguins w)]
    ∧ penguins w' = (refreshed (store w) <$> penguins w).
Proof.
  intros Hstale.
  set (wa := set_clock (clock w + Z.of_N d1) w).
  set (wb := set_clock (clock wa + Z.of_N e1) wa).
  set (ra := refresh_world (clock wb + Z.of_N d2) wb).
  set (wa' := add_body (Json (refreshed (store wb) <$> penguins wb)) ra).
  set (rb := refresh_world (clock wa' + Z.of_N e2) wa').
  set (wb' := add_body (Json (refreshed (store wa') <$> penguins wa')) rb).
  assert (Hids : Id <$> (refreshed (store w) <$> penguins w)
                 = Id <$> penguins w).
  { rewrite <- list_fmap_compose. by apply list_fmap_ext. }
  assert (Hagain : refreshed (store w) <$> (refreshed (store w) <$> penguins w)
                   = (refreshed (store w) <$> penguins w)).
  { apply refreshed_static_list, static_refreshed. }
  exists wb'. split; [| split; [| split]].
  - etrans.
    { apply (check_steps w _ _ 0 d1 d2); [reflexivity | exact Hstale]. }
    etrans.
    { apply (check_steps wa _ _ 1 e1 e2); [reflexivity |].
      subst wa. simpl. lia. }
    simpl.
    destruct (solo_frame (fun p => p) (fun _ _ => eq_refl)
                (bind (refresh_pass d2) (fun _ => roster_reply)) NoLock _
                wb wa' tt
                [(bind (refresh_pass d2) (fun _ => roster_reply), NoLock);
                 (bind (refresh_pass e2) (fun _ => roster_reply), NoLock)] 0
                (locks_pass_and_reply d2) (run_pass_and_reply d2 wb)
                eq_refl) as (h' & -> & Sa).
    etrans; [exact Sa |]. simpl.
    destruct (solo_frame (fun p => p) (fun _ _ => eq_refl)
                (bind (refresh_pass e2) (fun _ => roster_reply)) NoLock _
                wa' wb' tt
                [(Ret tt, NoLock);
                 (bind (refresh_pass e2) (fun _ => roster_reply), NoLock)] 1
                (locks_pass_and_reply e2) (run_pass_and_reply e2 wa')
                eq_refl) as (h' & -> & Sb).
    exact Sb.
  - subst wb' rb wa' ra wb wa. simpl.
    rewrite <- app_assoc. f_equal. f_equal.
    rewrite (list_fmap_compose Id RpcGet), Hids.
    by rewrite <- list_fmap_compose.
  - subst wb' rb wa' ra wb wa. simpl. rewrite Hagain.
    by rewrite <- app_assoc.
  - subst wb' rb wa' ra wb wa. simpl. exact Hagain.
Qed.

Lemma overlapping_roster_requests_refresh_twice_witness :
  (ttl < clock stocked_world + Z.of_N 0 - lastUpdateTime stocked_world)%Z
  ∧ ∃ w',
      rtc cstep (stocked_world, mkMutex false 0,
                 [(penguinsHandler 0 0, NoLock);
                  (penguinsHandler 0 0, NoLock)])
                (w', mkMutex false 0, [(Ret tt, NoLock); (Ret tt, NoLock)])
      ∧ rpcs w' = [RpcGet "p1"; RpcGet "p2"; RpcGet "p1"; RpcGet "p2"].
Proof.
  assert (Hstale : (ttl < clock stocked_world + Z.of_N 0
                          - lastUpdateTime stocked_world)%Z)
    by (vm_compute; reflexivity).
  split; [exact Hstale |].
  destruct (overlapping_roster_requests_refresh_twice stocked_world 0 0 0 0
              Hstale) as (w' & Hsteps & Hrpcs & _).
  exists w'. split; [exact Hsteps |]. rewrite Hrpcs. reflexivity.
Defined.

(** ** The earlier revision, route by route *)

Lemma AppV1_run_penguinsHandler (d1 d2 : N) (s : world) :
  run (AppV1.penguinsHandler d1 d2) s = run (penguinsHandler d1 d2) s.
Proof.
  rewrite run_penguinsHandler. unfold AppV1.penguinsHandler.
  unfold mbind, prog_bind. rewrite run_bind.
  change (run (call mutex_Lock) s) with (Some (tt, s)). cbv beta iota.
  rewrite run_bind, AppV1_run_update.
  by destruct (run (updatePenguinsStatistics d1 d2) s) as [[[] s1] |].
Qed.

(** X13: served alone, the two revisions answer every request alike and
    leave the same roster, timestamp, datastore and datastore call history;
    the only difference is the log line that the later revision writes, and
    the earlier one ([app/app.go]) does not, when the put of a stat request
    for an id of the roster fails. *)
Theorem revisions_agree_serially (r : request) (s : world) :
  ∃ s1 s2,
    run (AppV1.serve r) s = Some (tt, s1)
    ∧ run (serve r) s = Some (tt, s2)
    ∧ penguins s1 = penguins s2
    ∧ lastUpdateTime s1 = lastUpdateTime s2
    ∧ clock s1 = clock s2
    ∧ store s1 = store s2
    ∧ rpcs s1 = rpcs s2
    ∧ body s1 = body s2
    ∧ errlog s2 = match r with
                  | GetStat c id true =>
                      if has_id id (penguins s) then errlog s1 ++ [put_error]
                      else errlog s1
                  | _ => errlog s1
                  end.
Proof.
  destruct r as [| d1 d2 | d | c id failed]; simpl AppV1.serve; simpl serve.
  - eexists _, _. split; [done |]. split; [done |]. by repeat split.
  - rewrite AppV1_run_penguinsHandler, run_penguinsHandler, run_update.
    eexists _, _. split; [done |]. split; [done |].
    case_bool_decide; by repeat split.
  - eexists _, _. split; [done |]. split; [done |]. by repeat split.
  - rewrite AppV1_run_statHandler, run_statHandler.
    eexists _, _. split; [done |]. split; [done |].
    unfold after_event.
    destruct (has_id id (penguins s)), failed; by repeat split.
Qed.

Lemma annotate_no_mutex (h : held) (tr tl : list op) :
  Forall (fun o => uses_mutex o = false) tr →
  annotate h (tr ++ tl) = ((fun o => (o, h)) <$> tr) ++ annotate h tl.
Proof.
  induction 1 as [| o tr Ho _ IH]; [done |].
  simpl. replace (held_after o h) with h by (by destruct o).
  by rewrite IH.
Qed.

Lemma annotate_bracket (tr : list op) :
  Forall (fun o => uses_mutex o = false) tr →
  annotate NoLock (mutex_Lock :: tr ++ [mutex_Unlock])
  = (mutex_Lock, NoLock) :: ((fun o => (o, WriteLock)) <$> tr ++ [mutex_Unlock]).
Proof.
  intros Hno. change (annotate NoLock (mutex_Lock :: ?l))
    with ((mutex_Lock, NoLock) :: annotate WriteLock l).
  f_equal. rewrite (annotate_no_mutex WriteLock tr [mutex_Unlock] Hno).
  by rewrite fmap_app.
Qed.

Lemma refresh_ops_no_mutex (db : gmap string penguinEntity) (i : nat)
    (ps : list penguin) :
  Forall (fun o => uses_mutex o = false) (refresh_ops db i ps).
Proof.
  revert i. induction ps as [| p ps IH]; intros i; [constructor |].
  simpl. repeat (constructor; [done |]). apply IH.
Qed.

Lemma AppV1_trace_update (d1 d2 : N) (s : world) :
  ∃ tr,
    trace (AppV1.updatePenguinsStatistics d1 d2) s = get_lastUpdateTime :: tr
    ∧ Forall (fun o => uses_mutex o = false) tr.
Proof.
  unfold AppV1.updatePenguinsStatistics. prog_simpl.
  case_bool_decide.
  - eexists. split; [done |]. by repeat constructor.
  - prog_simpl. rewrite (trace_refresh_from [] (penguins s)) by done.
    eexists. split; [done |]. repeat (constructor; [done |]).
    apply refresh_ops_no_mutex.
Qed.

(** X14: in the earlier revision ([app/app.go]) the roster request holds the
    mutex from its first primitive to its last: the staleness check, the
    pass if there is one and the reading of the roster for the answer all
    run with the lock held, the handler never waits for itself and releases
    the mutex at the end; [penguinExists] on the other hand reads the roster
    entries holding no lock. *)
Theorem AppV1_roster_request_under_mutex (s : world) (d1 d2 : N) :
  (∃ tr,
     trace (AppV1.penguinsHandler d1 d2) s
       = mutex_Lock :: get_lastUpdateTime :: tr ++ [mutex_Unlock]
     ∧ Forall (fun o => uses_mutex o = false) tr
     ∧ read_penguins ∈ tr
     ∧ annotate NoLock (trace (AppV1.penguinsHandler d1 d2) s)
       = (mutex_Lock, NoLock)
         :: ((fun o => (o, WriteLock)) <$>
               get_lastUpdateTime :: tr ++ [mutex_Unlock])
     ∧ mutex_run (trace (AppV1.penguinsHandler d1 d2) s) (mkMutex false 0)
       = Some (mkMutex false 0))
  ∧ ∀ id, never uses_mutex (AppV1.penguinExists id)
          ∧ (penguins s ≠ [] →
             annotate NoLock (trace (AppV1.penguinExists id) s) !! 1
             = Some (penguins_at 0, NoLock)).
Proof.
  split.
  - destruct (AppV1_trace_update d1 d2 s) as (tr & Htr & Hno).
    assert (Hrun : ∃ s1, run (AppV1.updatePenguinsStatistics d1 d2) s
                         = Some (tt, s1)).
    { rewrite AppV1_run_update, run_update. by eexists. }
    destruct Hrun as [s1 Hrun].
    exists (tr ++ [read_penguins; fmt_Fprint (Json (penguins s1))]).
    assert (Htrace : trace (AppV1.penguinsHandler d1 d2) s
                     = mutex_Lock :: get_lastUpdateTime
                       :: (tr ++ [read_penguins;
                                  fmt_Fprint (Json (penguins s1))])
                          ++ [mutex_Unlock]).
    { unfold AppV1.penguinsHandler. unfold mbind, prog_bind.
      rewrite trace_bind.
      change (trace (call mutex_Lock) s) with [mutex_Lock].
      change (run (call mutex_Lock) s) with (Some (tt, s)). cbv beta iota.
      rewrite trace_bind, Htr, Hrun. simpl. by rewrite <- app_assoc. }
    assert (Hno' : Forall (fun o => uses_mutex o = false)
                     (tr ++ [read_penguins; fmt_Fprint (Json (penguins s1))])).
    { apply Forall_app. split; [done |]. by repeat constructor. }
    split; [done |]. split; [done |].
    split; [apply elem_of_app; right; apply elem_of_cons; by left |].
    rewrite Htrace. split.
    + apply (annotate_bracket (get_lastUpdateTime :: _)).
      by constructor.
    + simpl.
      assert (Hgo : ∀ l, Forall (fun o => uses_mutex o = false) l →
                mutex_run (l ++ [mutex_Unlock]) (mkMutex true 0)
                = Some (mkMutex false 0)).
      { induction 1 as [| o l Ho _ IH]; [done |]. simpl.
        destruct o; try done. }
      apply (Hgo _ Hno').
  - intros id. split.
    + unfold AppV1.penguinExists. prog_simpl. split; [done |]. intros n.
      by apply never_exists_from.
    + intros Hne. unfold AppV1.penguinExists. prog_simpl.
      by destruct (penguins s) as [| p ps] eqn:Hps.
Qed.

Lemma AppV1_roster_request_under_mutex_witness :
  penguins stocked_world ≠ []
  ∧ annotate NoLock (trace (AppV1.penguinExists "p2") stocked_world) !! 1
    = Some (penguins_at 0, NoLock)
  ∧ annotate NoLock (trace (AppV1.penguinsHandler 0 0) stocked_world) !! 1
    = Some (get_lastUpdateTime, WriteLock).
Proof.
  split; [discriminate |].
  destruct (AppV1_roster_request_under_mutex stocked_world 0 0)
    as [(tr & _ & _ & _ & Hann & _) Hex].
  split.
  - apply (Hex "p2"). discriminate.
  - rewrite Hann. reflexivity.
Defined.

(** ** What each route leaves alone *)

Lemma never_refresh_from (P : op → bool) (i todo : nat) :
  (∀ j, P (penguins_at j) = false) →
  (∀ key, P (datastore_Get key) = false) →
  (∀ j v, P (put_VisitCount j v) = false) →
  (∀ j v, P (put_FishCount j v) = false) →
  (∀ j v, P (put_BellyrubCount j v) = false) →
  never P (refresh_from i todo).
Proof.
  intros Hat Hget Hv Hf Hb. revert i.
  induction todo as [| todo IH]; intros i; [done |].
  prog_simpl. split; [apply Hat |]. intros p. split; [apply Hget |].
  intros [e |]; prog_simpl;
    (split; [apply Hv |]; intros _); (split; [apply Hf |]; intros _);
    (split; [apply Hb |]; intros _); apply IH.
Qed.

Lemma never_penguinsHandler_put (d1 d2 : N) :
  never puts_record (penguinsHandler d1 d2).
Proof.
  unfold penguinsHandler, updatePenguinsStatistics. prog_simpl.
  split; [done |]. intros t. split; [done |]. intros now.
  case_bool_decide; prog_simpl.
  - split; [done |]. intros _. split; [done |]. intros ps.
    split; [done |]. intros _. by split.
  - split; [done |]. intros _. split; [done |]. intros now2.
    split; [done |]. intros _. split; [done |]. intros n.
    apply never_bind.
    + apply never_bind; [by apply never_refresh_from |].
      intros _. by simpl.
    + intros _. simpl. split; [done |]. intros _.
      split; [done |]. intros ps. split; [done |]. intros _. by split.
Qed.

Lemma never_statHandler_response (c : stat) (id : string) (failed : bool) :
  never writes_response (statHandler c id failed).
Proof.
  assert (Hex : never writes_response (penguinExists id)).
  { unfold penguinExists. prog_simpl.
    split; [done |]. intros _. split; [done |]. intros n.
    apply never_bind; [by apply never_exists_from | done]. }
  destruct c; unfold statHandler;
    [unfold visitHandler | unfold fishHandler | unfold bellyrubHandler];
    unfold mbind at 1, prog_bind; (apply never_bind; [exact Hex |]);
    intros []; [| done | | done | | done];
    prog_simpl; (split; [done |]); intros [e |]; prog_simpl;
    (split; [done |]); intros []; done.
Qed.

(** X15: what the routes never do, whatever the datastore and the clock
    answer.  The root and the update request make no datastore call, take no
    lock and write no log line, and the update request writes nothing to the
    response and to no roster entry; the roster request never puts a record;
    a stat request never writes to the response. *)
Theorem route_footprints :
  (never calls_datastore rootHandler ∧ never uses_mutex rootHandler
   ∧ never writes_cache rootHandler ∧ never writes_log rootHandler)
  ∧ (∀ d, never calls_datastore (updateHandler d)
          ∧ never uses_mutex (updateHandler d)
          ∧ never writes_roster (updateHandler d)
          ∧ never writes_response (updateHandler d)
          ∧ never writes_log (updateHandler d))
  ∧ (∀ d1 d2, never puts_record (penguinsHandler d1 d2))
  ∧ (∀ c id failed, never writes_response (statHandler c id failed)).
Proof.
  split; [by repeat split |]. split; [intros d; by repeat split |].
  split; [apply never_penguinsHandler_put
         | apply never_statHandler_response].
Qed.

(** ** The timestamp is never in the future *)

Lemma timely_bind {A B} (c0 : Z) (p : prog A) (f : A → prog B) :
  timely c0 p → (∀ a c1, timely c1 (f a)) → timely c0 (bind p f).
Proof.
  intros Hp Hf. revert c0 Hp. induction p as [a | o k IH]; intros c0; simpl.
  - intros _. apply Hf.
  - intros [Hput Hk]. split; [done |]. intros x Hx. by apply IH, Hk.
Qed.

Lemma timely_exists_from (c0 : Z) (id : string) (i todo : nat) :
  timely c0 (exists_from id i todo).
Proof.
  revert i. induction todo as [| todo IH]; intros i; [done |].
  prog_simpl. split; [done |]. intros p _.
  case_bool_decide; [done | apply IH].
Qed.

Lemma timely_refresh_from (c0 : Z) (i todo : nat) :
  timely c0 (refresh_from i todo).
Proof.
  revert i. induction todo as [| todo IH]; intros i; [done |].
  prog_simpl. split; [done |]. intros p _. split; [done |].
  intros [e |] _; prog_simpl;
    (do 3 (split; [done |]; intros _ _)); apply IH.
Qed.

Lemma timely_penguinExists (c0 : Z) (id : string) :
  timely c0 (penguinExists id).
Proof.
  unfold penguinExists. prog_simpl.
  split; [done |]. intros _ _. split; [done |]. intros n _.
  apply timely_bind; [apply timely_exists_from |]. intros b c1. by simpl.
Qed.

Lemma timely_serve (c0 : Z) (r : request) : timely c0 (serve r).
Proof.
  destruct r as [| d1 d2 | d | c id failed]; simpl serve.
  - by simpl.
  - unfold penguinsHandler, updatePenguinsStatistics. prog_simpl.
    split; [done |]. intros t _. split; [done |]. intros now Hnow.
    case_bool_decide; prog_simpl.
    + split; [done |]. intros _ _. split; [done |]. intros ps _.
      split; [done |]. intros _ _. by split.
    + split; [done |]. intros _ _. split; [done |]. intros now2 Hnow2.
      split; [by intros t' [= <-] |]. intros _ _.
      split; [done |]. intros n _.
      apply timely_bind.
      * apply timely_bind; [apply timely_refresh_from |].
        intros _ c1. by simpl.
      * intros _ c1. simpl. split; [done |]. intros _ _.
        split; [done |]. intros ps _. split; [done |]. intros _ _.
        by split.
  - simpl. split; [done |]. intros now Hnow.
    split; [| done]. intros t' [= <-]. unfold GoTime.Add, GoTime.Minute,
      GoTime.Second, GoTime.Nanosecond. lia.
  - destruct c; unfold statHandler;
      [unfold visitHandler | unfold fishHandler | unfold bellyrubHandler];
      unfold mbind at 1, prog_bind;
      (apply timely_bind; [apply timely_penguinExists |]);
      intros [] c1; [| done | | done | | done];
      prog_simpl; (split; [done |]); intros [e |] _; prog_simpl;
      (split; [done |]); intros [] _; done.
Qed.

Lemma op_sem_clock (o : op) (w w' : world) (x : res o) :
  op_sem o w = Some (x, w') →
  (clock w ≤ clock w')%Z
  ∧ (∀ z, as_time o x = Some z → z = clock w')
  ∧ (lastUpdateTime w' = lastUpdateTime w
     ∨ ∃ t, o = put_lastUpdateTime t ∧ lastUpdateTime w' = t).
Proof.
  destruct o; simpl; intros Hsem;
    try (simplify_eq/=; split; [lia |]; split; [done |]; by left).
  - simplify_eq/=. split; [lia |]. split; [by intros z [= <-] | by left].
  - simplify_eq/=. split; [lia |]. split; [done |]. right. by eexists.
  - destruct (penguins w !! i); simplify_eq/=.
    split; [lia |]. split; [done |]. by left.
  - destruct (penguins w !! i); simplify_eq/=.
    split; [lia |]. split; [done |]. by left.
  - destruct (penguins w !! i); simplify_eq/=.
    split; [lia |]. split; [done |]. by left.
  - destruct (penguins w !! i); simplify_eq/=.
    split; [lia |]. split; [done |]. by left.
  - destruct failed; simplify_eq/=; (split; [lia |]); (split; [done |]);
      by left.
Qed.

Lemma time_inv_step (c c' : config) : time_inv c → cstep c c' → time_inv c'.
Proof.
  intros Hinv Hstep.
  destruct Hstep as [w m ts r | w w' m ts i o k h x Hi Hen Hsem];
    destruct Hinv as [Hlast Hts].
  - split; [done |]. apply Forall_app. split; [done |].
    constructor; [| constructor]. exists (clock w). split; [lia |].
    apply timely_serve.
  - destruct (op_sem_clock o w w' x Hsem) as (Hmono & Hread & Hlast').
    pose proof (Forall_lookup_1 _ _ _ _ Hts Hi) as (c0 & Hc0 & Hput & Hk).
    simpl in Hk. split.
    + destruct Hlast' as [-> | (t & -> & ->)]; [lia |].
      specialize (Hput t eq_refl). lia.
    + apply Forall_insert.
      * eapply Forall_impl; [exact Hts |].
        intros t (c1 & Hc1 & Ht). exists c1. split; [lia | done].
      * exists (default c0 (as_time o x)). split.
        -- destruct (as_time o x) as [z |] eqn:Hz; simpl; [| lia].
           rewrite (Hread z eq_refl). lia.
        -- apply Hk. intros z Hz. rewrite (Hread z Hz). lia.
Qed.

Lemma time_inv_rtc (c c' : config) : rtc cstep c c' → time_inv c → time_inv c'.
Proof.
  induction 1 as [c | c c1 c' Hstep _ IH]; [done |].
  intros Hinv. apply IH. by apply (time_inv_step c).
Qed.

(** X16: [lastUpdateTime] is never in the future: in every interleaving of
    requests from startup on it is at most the clock, so the elapsed time
    that the staleness check computes is never negative.  Served alone, a
    roster request never moves the timestamp back, and the update request
    sets it exactly twenty minutes before its clock reading. *)
Theorem timestamp_never_in_the_future (ps : list penguin) (now : Z)
    (db : gmap string penguinEntity) (c : config) :
  rtc cstep (init_world ps now db, mkMutex false 0, []) c →
  (lastUpdateTime c.1.1 ≤ clock c.1.1)%Z
  ∧ (∀ d1 d2, ∃ s',
       run (penguinsHandler d1 d2) c.1.1 = Some (tt, s')
       ∧ (lastUpdateTime c.1.1 ≤ lastUpdateTime s' ≤ clock s')%Z)
  ∧ (∀ d, ∃ s',
       run (updateHandler d) c.1.1 = Some (tt, s')
       ∧ lastUpdateTime s' = (clock s' - 20 * GoTime.Minute)%Z).
Proof.
  intros Hsteps.
  assert (Hle : (lastUpdateTime c.1.1 ≤ clock c.1.1)%Z).
  { apply time_inv_rtc in Hsteps.
    - destruct c as [[w m] ts]. by destruct Hsteps.
    - split; [| constructor]. simpl. unfold GoTime.Add, GoTime.Minute,
        GoTime.Second, GoTime.Nanosecond. lia. }
  split; [done |]. split.
  - intros d1 d2. eexists. rewrite run_penguinsHandler, run_update.
    split; [done |]. case_bool_decide; simpl; lia.
  - intros d. eexists. rewrite run_updateHandler. split; [done |].
    simpl. unfold GoTime.Add. lia.
Qed.

Lemma timestamp_never_in_the_future_witness :
  rtc cstep (init_world [pingu; pinga] 0 {[ "p1" := mkEntity "p1" 5 2 1 ]},
             mkMutex false 0, []) mid_pass
  ∧ lastUpdateTime mid_pass.1.1 = 0%Z ∧ clock mid_pass.1.1 = 0%Z
  ∧ (lastUpdateTime mid_pass.1.1 ≤ clock mid_pass.1.1)%Z.
Proof.
  split; [exact rtc_to_mid_pass |].
  split; [vm_compute; reflexivity |]. split; [vm_compute; reflexivity |].
  exact (proj1 (timestamp_never_in_the_future _ _ _ _ rtc_to_mid_pass)).
Defined.
